(** * The Kafka broker consumer: framing, offset cursor and polling loops

    A shallow embedding of consumer.go (BrokerConsumer, consumeWithConn,
    Consume, ConsumeUntilQuit, ConsumeOnChannel, GetOffsets).  Go's unsigned
    integers are integers of [Z] with the wrap-around written out; network
    input and output are explicit arguments; the handler's effects are
    threaded through as a state. *)

From Stdlib Require Import String.
From Stdlib Require Import ZArith List Lia Bool Sorted.
From Stdlib.Strings Require Import Byte.
Import ListNotations.
Open Scope Z_scope.

(** ** Go integers *)

Definition uint32 (z : Z) : Z := z mod 2 ^ 32.
Definition uint64 (z : Z) : Z := z mod 2 ^ 64.

Definition len {A : Type} (l : list A) : Z := Z.of_nat (List.length l).

(** ** Outcomes of running Go code

    A call returns, panics (an index out of range), or is still running when
    the model's fuel is spent. *)

Inductive outcome (A : Type) : Type :=
| Returned (a : A)
| Panicked
| Unfinished.

Arguments Returned {A} a.
Arguments Panicked {A}.
Arguments Unfinished {A}.

Definition bind {A B : Type} (m : outcome A) (k : A -> outcome B) : outcome B :=
  match m with
  | Returned a => k a
  | Panicked => Panicked
  | Unfinished => Unfinished
  end.

Notation "x <- m ;; k" := (bind m (fun x => k))
  (at level 61, m at next level, right associativity).

(** ** Bytes and encoding/binary *)

Definition byteval (b : byte) : Z := Z.of_N (Byte.to_N b).

Definition bigEndian (bs : list byte) : Z :=
  fold_left (fun acc b => acc * 256 + byteval b) bs 0.

(** [payload[i:]]: a slice expression panics when [i] exceeds the length. *)
Definition sliceFrom (b : list byte) (i : Z) : outcome (list byte) :=
  if i <=? len b then Returned (skipn (Z.to_nat i) b) else Panicked.

(** [binary.BigEndian.Uint32(b)] reads [b[0..3]] and panics on a shorter slice. *)
Definition Uint32 (b : list byte) : outcome Z :=
  match b with
  | b0 :: b1 :: b2 :: b3 :: _ => Returned (bigEndian [b0; b1; b2; b3])
  | _ => Panicked
  end.

(** [binary.BigEndian.Uint64(b)] reads [b[0..7]] and panics on a shorter slice. *)
Definition Uint64 (b : list byte) : outcome Z :=
  match b with
  | b0 :: b1 :: b2 :: b3 :: b4 :: b5 :: b6 :: b7 :: _ =>
      Returned (bigEndian [b0; b1; b2; b3; b4; b5; b6; b7])
  | _ => Panicked
  end.

(** ** Errors *)

Inductive error : Type :=
| io_EOF
| ErrorDecodingMessage          (* errors.New("Error Decoding Message") *)
| NetError (code : nat).        (* any other error of the connection *)

Definition error_eqb (a b : error) : bool :=
  match a, b with
  | io_EOF, io_EOF => true
  | ErrorDecodingMessage, ErrorDecodingMessage => true
  | NetError m, NetError n => Nat.eqb m n
  | _, _ => false
  end.

(** ** Messages *)

Module Message.

(** Modelled from the spec: the Message struct, declared in message.go.  A
    message has a checksum, a payload, the stored total length (a 4-byte
    field) and the absolute offset the consumer assigns to it. *)
Record t : Type := mk {
  checksum : list byte;
  payload : list byte;
  totalLength : Z;     (* uint32 *)
  offset : Z           (* uint64 *)
}.

(** [msg.offset = o] *)
Definition setOffset (msg : t) (o : Z) : t :=
  {| checksum := checksum msg; payload := payload msg;
     totalLength := totalLength msg; offset := o |}.
End Message.

(** Modelled from the spec: Decode, defined in message.go.  The first four
    bytes of the buffer are the stored length N (checksum and payload, without
    the length field itself); the next N bytes are the checksum and the
    payload; totalLength is N.  A buffer shorter than the declared length
    (among them one too short to hold the length field) yields nil. *)
Definition Decode (packet : list byte) : option Message.t :=
  match packet with
  | b0 :: b1 :: b2 :: b3 :: rest =>
      let length := bigEndian [b0; b1; b2; b3] in
      if len rest <? length then None
      else
        let body := firstn (Z.to_nat length) rest in
        Some {| Message.checksum := firstn 4 body;
                Message.payload := skipn 4 body;
                Message.totalLength := length;
                Message.offset := 0 |}
  | _ => None
  end.

(** ** The consumer *)

(** Modelled from the spec: the Broker struct of kafka.go, as the three
    arguments of its constructor newBroker. *)
Record Broker : Type := newBroker {
  hostname : String.string;
  topic : String.string;
  partition : Z
}.

Record BrokerConsumer : Type := mkBrokerConsumer {
  broker : Broker;
  offset : Z;      (* uint64 *)
  maxSize : Z      (* uint32 *)
}.

Definition NewBrokerConsumer (hostname topic : String.string) (partition : Z)
    (offset : Z) (maxSize : Z) : BrokerConsumer :=
  {| broker := newBroker hostname topic partition;
     offset := offset;
     maxSize := maxSize |}.

Definition NewBrokerOffsetConsumer (hostname topic : String.string) (partition : Z)
    : BrokerConsumer :=
  {| broker := newBroker hostname topic partition;
     offset := 0;
     maxSize := 0 |}.

(** [consumer.offset = o] *)
Definition setOffset (consumer : BrokerConsumer) (o : Z) : BrokerConsumer :=
  {| broker := broker consumer; offset := o; maxSize := maxSize consumer |}.

(** ** One request and response exchange *)

(** Modelled from the spec: conn.Write and Broker.readResponse (kafka.go) are
    the connection helper; what they return is an input of the model.
    readResponse returns the declared length of the response frame (the
    value of the frame's 4-byte length field), the payload and an error.
    The Go type of the length is declared with readResponse; the model
    takes the length as an integer. *)
Record Exchange : Type := mkExchange {
  write_err : option error;
  resp_length : Z;
  resp_payload : list byte;
  read_err : option error
}.

(** The bound of both scanning loops, [uint64(length-4)]: below 4 the
    difference is negative and the conversion to uint64 wraps it around. *)
Definition scanBound (length : Z) : Z := uint64 (length - 4).

(** How the loop of consumeWithConn ends: it runs to its bound, or it leaves
    the function at [return num, errors.New(...)]. *)
Inductive scanned (St : Type) : Type :=
| ScanDone (currentOffset : Z) (num : Z) (s : St)
| ScanFailed (num : Z) (s : St).

Arguments ScanDone {St} currentOffset num s.
Arguments ScanFailed {St} num s.

Section ConsumeWithConn.

(** The state the handler works on, and the handler. *)
Context {St : Type}.
Variable handlerFunc : Message.t -> St -> St.

(** [for currentOffset <= uint64(length-4) { ... }] *)
Fixpoint scan (fuel : nat) (consumer : BrokerConsumer) (length : Z)
    (payload : list byte) (currentOffset : Z) (num : Z) (s : St)
    : outcome (scanned St) :=
  match fuel with
  | O => Unfinished
  | S fuel' =>
      if currentOffset <=? scanBound length then
        packet <- sliceFrom payload currentOffset ;;
        match Decode packet with
        | None => Returned (ScanFailed num s)
        | Some msg =>
            let msg := Message.setOffset msg
                         (uint64 (offset consumer + currentOffset)) in
            let currentOffset :=
              uint64 (currentOffset
                      + uint64 (uint32 (4 + Message.totalLength msg))) in
            let s := handlerFunc msg s in
            scan fuel' consumer length payload currentOffset (num + 1) s
        end
      else Returned (ScanDone currentOffset num s)
  end.

(** consumeWithConn returns [(num, err)]; the consumer and the handler's
    state after the call are returned with them.  Over a payload below 2^32
    bytes every round of the loop that does not leave it moves
    [currentOffset] forward inside the payload, so one unit of fuel per
    payload byte and one more is enough (lemma [walk_total]). *)
Definition consumeWithConn (consumer : BrokerConsumer) (io : Exchange) (s : St)
    : outcome (Z * option error * BrokerConsumer * St) :=
  match write_err io with
  | Some err => Returned (-1, Some err, consumer, s)
  | None =>
      let length := resp_length io in
      let payload := resp_payload io in
      let err := read_err io in
      match err with
      | Some _ => Returned (-1, err, consumer, s)
      | None =>
          if length >? 2 then
            r <- scan (S (List.length payload)) consumer length payload 0 0 s ;;
            match r with
            | ScanFailed num s' =>
                Returned (num, Some ErrorDecodingMessage, consumer, s')
            | ScanDone currentOffset num s' =>
                Returned (num, err,
                          setOffset consumer
                            (uint64 (offset consumer + currentOffset)),
                          s')
            end
          else Returned (0, err, consumer, s)
      end
  end.

End ConsumeWithConn.

(** ** GetOffsets *)

(** [for currentOffset < uint64(length-4) && uint32(len(offsets)) < numOffsets] *)
Fixpoint collectOffsets (fuel : nat) (length : Z) (payload : list byte)
    (numOffsets : Z) (currentOffset : Z) (offsets : list Z)
    : outcome (list Z) :=
  match fuel with
  | O => Unfinished
  | S fuel' =>
      if (currentOffset <? scanBound length)
         && (uint32 (len offsets) <? numOffsets) then
        b <- sliceFrom payload currentOffset ;;
        offset <- Uint64 b ;;
        collectOffsets fuel' length payload numOffsets
          (uint64 (currentOffset + 8)) (offsets ++ [offset])
      else Returned offsets
  end.

(** GetOffsets returns [(offsets, err)].  [connect_err] is what
    Broker.connect returned; [time] and [maxNumOffsets] go into the request
    and nowhere else; the connection is closed by a deferred call on every
    way out, which the model leaves out.  A round of the loop that goes on
    has read eight bytes
    of the payload, so the fuel is again one unit per payload byte and one
    more. *)
Definition GetOffsets (consumer : BrokerConsumer) (time : Z) (maxNumOffsets : Z)
    (connect_err : option error) (io : Exchange)
    : outcome (list Z * option error) :=
  let offsets : list Z := [] in
  match connect_err with
  | Some err => Returned (offsets, Some err)
  | None =>
      match write_err io with
      | Some err => Returned (offsets, Some err)
      | None =>
          let length := resp_length io in
          let payload := resp_payload io in
          let err := read_err io in
          match err with
          | Some _ => Returned (offsets, err)
          | None =>
              if length >? 4 then
                b <- sliceFrom payload 0 ;;
                numOffsets <- Uint32 b ;;
                offsets <- collectOffsets (S (List.length payload)) length
                             payload numOffsets 4 offsets ;;
                Returned (offsets, err)
              else Returned (offsets, err)
          end
      end
  end.

(** ** Effects of the driving modes

    What the three driving modes do to the outside world is recorded as a
    trace of events, next to the state of the caller's handler. *)

Inductive event : Type :=
| EvConnect                      (* consumer.broker.connect() gave a connection *)
| EvClose                        (* conn.Close() *)
| EvHandle (msg : Message.t)     (* the caller's handler was called *)
| EvSend (msg : Message.t)       (* msgChan <- msg *)
| EvLog (err : error)            (* log.Printf, log.Println *)
| EvSleep (ms : Z)               (* time.Sleep *)
| EvCloseChan                    (* close(msgChan) *)
| EvDone.                        (* done <- true *)

Record World (H : Type) : Type := mkWorld {
  user : H;
  events : list event
}.

Arguments mkWorld {H} user events.
Arguments user {H} w.
Arguments events {H} w.

Definition emit {H : Type} (e : event) (w : World H) : World H :=
  {| user := user w; events := events w ++ [e] |}.

(** A call of the caller's handler. *)
Definition invoke {H : Type} (handlerFunc : Message.t -> H -> H)
    (msg : Message.t) (w : World H) : World H :=
  {| user := handlerFunc msg (user w); events := events w ++ [EvHandle msg] |}.

Definition isEOF (err : error) : bool := error_eqb err io_EOF.

Section Drivers.

Context {H : Type}.
Variable handlerFunc : Message.t -> H -> H.

(** Consume returns [(num, err)]; the deferred [conn.Close()] runs last. *)
Definition Consume (consumer : BrokerConsumer) (connect_err : option error)
    (io : Exchange) (w : World H)
    : outcome (Z * option error * BrokerConsumer * World H) :=
  match connect_err with
  | Some err => Returned (-1, Some err, consumer, w)
  | None =>
      let w := emit EvConnect w in
      r <- consumeWithConn (invoke handlerFunc) consumer io w ;;
      let '(num, err, consumer, w) := r in
      let w := match err with
               | Some e => emit (EvLog e) w
               | None => w
               end in
      Returned (num, err, consumer, emit EvClose w)
  end.

(** The polling goroutine of ConsumeUntilQuit.  [quitReceived] goes from
    false to true once, so the loop reads it false some number of times and
    then true: [polls] holds the exchanges of the rounds that found it
    false. *)
Fixpoint pollUntilQuit (pollTimeoutMs : Z) (consumer : BrokerConsumer)
    (polls : list Exchange) (w : World H) : outcome (BrokerConsumer * World H) :=
  match polls with
  | [] => Returned (consumer, emit EvDone w)
  | io :: polls' =>
      r <- consumeWithConn (invoke handlerFunc) consumer io w ;;
      let '(_, err, consumer, w) := r in
      let w := match err with
               | Some e => if negb (isEOF e) then emit (EvLog e) w else w
               | None => w
               end in
      pollUntilQuit pollTimeoutMs consumer polls' (emit (EvSleep pollTimeoutMs) w)
  end.

(** ConsumeUntilQuit returns [(messageCount, skippedMessageCount, err)]
    after it has received from [done]. *)
Definition ConsumeUntilQuit (consumer : BrokerConsumer) (pollTimeoutMs : Z)
    (connect_err : option error) (polls : list Exchange) (w : World H)
    : outcome (Z * Z * option error * BrokerConsumer * World H) :=
  match connect_err with
  | Some err => Returned (-1, 0, Some err, consumer, w)
  | None =>
      let w := emit EvConnect w in
      let messageCount := 0 in
      let skippedMessageCount := 0 in
      r <- pollUntilQuit pollTimeoutMs consumer polls w ;;
      let '(consumer, w) := r in
      Returned (messageCount, skippedMessageCount, None, consumer, w)
  end.

End Drivers.

(** The handler ConsumeOnChannel passes to consumeWithConn:
    [msgChan <- msg; num += 1].  The state of the world is [num]. *)
Definition sendOnChannel (msg : Message.t) (w : World Z) : World Z :=
  {| user := user w + 1; events := events w ++ [EvSend msg] |}.

(** The polling goroutine of ConsumeOnChannel.  [polls] holds the exchanges
    of its rounds, the ones after the caller closed the connection among
    them; the loop is still running when they are used up. *)
Fixpoint pollOnChannel (pollTimeoutMs : Z) (consumer : BrokerConsumer)
    (polls : list Exchange) (w : World Z) : outcome (BrokerConsumer * World Z) :=
  match polls with
  | [] => Unfinished
  | io :: polls' =>
      r <- consumeWithConn sendOnChannel consumer io w ;;
      let '(_, err, consumer, w) := r in
      match err with
      | Some e =>
          let w := if negb (isEOF e) then emit (EvLog e) w else w in
          Returned (consumer, emit EvDone w)
      | None =>
          pollOnChannel pollTimeoutMs consumer polls'
            (emit (EvSleep pollTimeoutMs) w)
      end
  end.

(** ConsumeOnChannel returns [(num, err)] after it has received from [done];
    [err] is the one of [connect], the loop's own is another variable.  The
    caller's goroutine waits for quit and closes the connection and the
    channel while the loop is polling: the loop sees that in its exchanges.
    The trace has the events of the polling goroutine first and the two
    calls of the caller's goroutine after them. *)
Definition ConsumeOnChannel (consumer : BrokerConsumer) (pollTimeoutMs : Z)
    (connect_err : option error) (polls : list Exchange) (w : World Z)
    : outcome (Z * option error * BrokerConsumer * World Z) :=
  match connect_err with
  | Some err => Returned (-1, Some err, consumer, w)
  | None =>
      let w := {| user := 0; events := events w ++ [EvConnect] |} in
      r <- pollOnChannel pollTimeoutMs consumer polls w ;;
      let '(consumer, w) := r in
      let w := emit EvCloseChan (emit EvClose w) in
      Returned (user w, connect_err, consumer, w)
  end.

(** ** Vocabulary of the specification *)

(** A well-formed message frame of the wire format,
    [[4-byte length][4-byte checksum][payload bytes]], where the length is 4
    plus the length of the payload. *)
Definition isFrame (f : list byte) : bool :=
  match f with
  | b0 :: b1 :: b2 :: b3 :: body =>
      (bigEndian [b0; b1; b2; b3] =? len body) && (4 <=? len body)
  | _ => false
  end.

(** The message a well-formed frame holds, at absolute offset [o]. *)
Definition messageOf (f : list byte) (o : Z) : Message.t :=
  {| Message.checksum := firstn 4 (skipn 4 f);
     Message.payload := skipn 8 f;
     Message.totalLength := len f - 4;
     Message.offset := o |}.

(** The messages of consecutive frames, the first of them at offset [o]. *)
Fixpoint messagesOf (o : Z) (frames : list (list byte)) : list Message.t :=
  match frames with
  | [] => []
  | f :: frames' => messageOf f o :: messagesOf (o + len f) frames'
  end.

(** The encoded length of a message: its 4-byte length field and what the
    field counts. *)
Definition encodedLength (msg : Message.t) : Z := 4 + Message.totalLength msg.

Definition encodedLengths (msgs : list Message.t) : Z :=
  fold_right (fun msg n => encodedLength msg + n) 0 msgs.

(** Calling the handler on each message of a list, in order. *)
Definition handleAll {St : Type} (handlerFunc : Message.t -> St -> St)
    (msgs : list Message.t) (s : St) : St :=
  fold_left (fun s msg => handlerFunc msg s) msgs s.

(** A handler that writes down the messages it is given. *)
Definition record (msg : Message.t) (seen : list Message.t) : list Message.t :=
  seen ++ [msg].

(** The payload of a response frame is shorter than 2^32 bytes: the frame
    gives its length in four bytes. *)
Definition fits (io : Exchange) : Prop := len (resp_payload io) < 2 ^ 32.

(** The declared length covers the payload, and at most three bytes more. *)
Definition declares (io : Exchange) : Prop :=
  len (resp_payload io) <= resp_length io <= len (resp_payload io) + 3.

(** The walk of the loop of consumeWithConn through a payload, without the
    handler: the position and the decoded message of every frame it passes,
    and the position it ends at when it runs to its bound ([None] when it
    meets a frame that does not decode). *)
Fixpoint walk (fuel : nat) (length : Z) (payload : list byte)
    (currentOffset : Z) : outcome (list (Z * Message.t) * option Z) :=
  match fuel with
  | O => Unfinished
  | S fuel' =>
      if currentOffset <=? scanBound length then
        packet <- sliceFrom payload currentOffset ;;
        match Decode packet with
        | None => Returned ([], None)
        | Some msg =>
            r <- walk fuel' length payload
                   (uint64 (currentOffset
                            + uint64 (uint32 (4 + Message.totalLength msg)))) ;;
            Returned ((currentOffset, msg) :: fst r, snd r)
        end
      else Returned ([], Some currentOffset)
  end.

(** The messages of a walk as the handler gets them. *)
Definition stamped (base : Z) (steps : list (Z * Message.t)) : list Message.t :=
  map (fun pm => Message.setOffset (snd pm) (uint64 (base + fst pm))) steps.

(** What the loop of consumeWithConn has done when its walk was [r]. *)
Definition finish {St : Type} (handlerFunc : Message.t -> St -> St)
    (base : Z) (num : Z) (s : St) (r : list (Z * Message.t) * option Z)
    : scanned St :=
  let s' := handleAll handlerFunc (stamped base (fst r)) s in
  let num' := num + len (fst r) in
  match snd r with
  | Some currentOffset => ScanDone currentOffset num' s'
  | None => ScanFailed num' s'
  end.

(** The steps of a walk over consecutive frames, the first at [pos]. *)
Fixpoint stepsOf (pos : Z) (frames : list (list byte)) : list (Z * Message.t) :=
  match frames with
  | [] => []
  | f :: frames' => (pos, messageOf f 0) :: stepsOf (pos + len f) frames'
  end.

(** ** Sample data *)

(** A frame with an empty payload, a frame with a payload of two bytes, and
    a frame cut off after two of the nine bytes it declares. *)
Definition frameA : list byte := [x00; x00; x00; x04; xde; xad; xbe; xef].
Definition frameB : list byte :=
  [x00; x00; x00; x06; x01; x02; x03; x04; x68; x69].
Definition truncated : list byte := [x00; x00; x00; x09; x01; x02].

Definition consumerAt (o : Z) : BrokerConsumer :=
  NewBrokerConsumer "localhost:9092"%string "test"%string 0 o 1048576.

(** A response that was written for and read without an error. *)
Definition response (length : Z) (payload : list byte) : Exchange :=
  {| write_err := None; resp_length := length; resp_payload := payload;
     read_err := None |}.

(** A response that could not be read. *)
Definition failedRead (err : error) : Exchange :=
  {| write_err := None; resp_length := 0; resp_payload := []; read_err := Some err |}.

(** An offset response payload [[count=3][300][200][100]]. *)
Definition countThree : list byte := [x00; x00; x00; x03].
Definition word300 : list byte := [x00; x00; x00; x00; x00; x00; x01; x2c].
Definition word200 : list byte := [x00; x00; x00; x00; x00; x00; x00; xc8].
Definition word100 : list byte := [x00; x00; x00; x00; x00; x00; x00; x64].
Definition threeOffsets : list byte := countThree ++ word300 ++ word200 ++ word100.

(** ** Accounting of passes *)

(** A pass over an exchange, seen from outside: consumeWithConn run with the
    handler that writes the messages down. *)
Definition pass (io : Exchange)
    : outcome (Z * option error * BrokerConsumer * list Message.t) :=
  consumeWithConn record (NewBrokerOffsetConsumer "" "" 0) io [].

(** The error a pass over [io] ends with. *)
Definition passError (io : Exchange) : option error :=
  match pass io with
  | Returned (_, err, _, _) => err
  | _ => None
  end.

(** The bytes a pass over [io] consumes: the encoded lengths of the messages
    it handled, when it ended without an error. *)
Definition consumedIn (io : Exchange) : Z :=
  match pass io with
  | Returned (_, None, _, msgs) => encodedLengths msgs
  | _ => 0
  end.

(** ** Reading a trace *)

Definition isClose (e : event) : bool :=
  match e with
  | EvClose => true
  | _ => false
  end.

(** How often the connection was closed. *)
Definition closes (evs : list event) : nat := List.length (filter isClose evs).

(** An event of a polling goroutine at work: neither [conn.Close()] nor
    [done <- true]. *)
Definition polling (e : event) : Prop := e <> EvClose /\ e <> EvDone.

(** The world before a driving mode starts. *)
Definition quiet {H : Type} (h : H) : World H := {| user := h; events := [] |}.

(** ** Sequences of operations on one consumer *)

Inductive operation : Type :=
| DoConsume (connect_err : option error) (io : Exchange)
| DoConsumeUntilQuit (pollTimeoutMs : Z) (connect_err : option error)
    (polls : list Exchange)
| DoConsumeOnChannel (pollTimeoutMs : Z) (connect_err : option error)
    (polls : list Exchange)
| DoGetOffsets (time maxNumOffsets : Z) (connect_err : option error)
    (io : Exchange).

(** The consumer after an operation. *)
Definition perform (op : operation) (consumer : BrokerConsumer)
    : outcome BrokerConsumer :=
  match op with
  | DoConsume connect_err io =>
      r <- Consume record consumer connect_err io (quiet []) ;;
      let '(_, _, consumer, _) := r in
      Returned consumer
  | DoConsumeUntilQuit pollTimeoutMs connect_err polls =>
      r <- ConsumeUntilQuit record consumer pollTimeoutMs connect_err polls
             (quiet []) ;;
      let '(_, _, _, consumer, _) := r in
      Returned consumer
  | DoConsumeOnChannel pollTimeoutMs connect_err polls =>
      r <- ConsumeOnChannel consumer pollTimeoutMs connect_err polls (quiet 0) ;;
      let '(_, _, consumer, _) := r in
      Returned consumer
  | DoGetOffsets time maxNumOffsets connect_err io =>
      _ <- GetOffsets consumer time maxNumOffsets connect_err io ;;
      Returned consumer
  end.

Fixpoint performAll (ops : list operation) (consumer : BrokerConsumer)
    : outcome BrokerConsumer :=
  match ops with
  | [] => Returned consumer
  | op :: ops' => consumer <- perform op consumer ;; performAll ops' consumer
  end.

(** The bytes consumed by polls that all take place. *)
Definition consumedByPolls (polls : list Exchange) : Z :=
  fold_right (fun io n => consumedIn io + n) 0 polls.

(** The bytes consumed by polls that end with the first error. *)
Fixpoint consumedOnChannel (polls : list Exchange) : Z :=
  match polls with
  | [] => 0
  | io :: polls' =>
      match passError io with
      | Some _ => 0
      | None => consumedIn io + consumedOnChannel polls'
      end
  end.

(** The bytes consumed by the passes of an operation that ended without an
    error. *)
Definition consumedBy (op : operation) : Z :=
  match op with
  | DoConsume None io => consumedIn io
  | DoConsumeUntilQuit _ None polls => consumedByPolls polls
  | DoConsumeOnChannel _ None polls => consumedOnChannel polls
  | _ => 0
  end.

Definition consumedByAll (ops : list operation) : Z :=
  fold_right (fun op n => consumedBy op + n) 0 ops.

(** The exchanges an operation hands to consumeWithConn. *)
Definition passesOf (op : operation) : list Exchange :=
  match op with
  | DoConsume _ io => [io]
  | DoConsumeUntilQuit _ _ polls => polls
  | DoConsumeOnChannel _ _ polls => polls
  | DoGetOffsets _ _ _ _ => []
  end.

Definition opFits (op : operation) : Prop := Forall fits (passesOf op).

(** A consumer's day: a pass over two frames, an offset query, two polls
    until quit (the first of them cut short) and two polls on a channel. *)
Definition sampleOps : list operation :=
  [ DoConsume None (response 18 (frameA ++ frameB));
    DoGetOffsets (-1) 2 None (response 28 threeOffsets);
    DoConsumeUntilQuit 10 None
      [response 14 (frameA ++ truncated); response 8 frameA];
    DoConsumeOnChannel 10 None [response 8 frameA; failedRead io_EOF] ].

(** Closed goals over the sample data are settled by evaluation. *)
Ltac by_computation := vm_compute; repeat split; intros; congruence.

(** ** Vocabulary of further properties *)

(** A handler that counts the messages it is given. *)
Definition tally (msg : Message.t) (n : Z) : Z := n + 1.

(** Messages that lie end to end from offset [o] to offset [stop]: the first
    begins at [o], each next one where the one before ends. *)
Fixpoint tiles (o : Z) (msgs : list Message.t) (stop : Z) : Prop :=
  match msgs with
  | [] => stop = o
  | msg :: msgs' =>
      Message.offset msg = o /\ tiles (o + encodedLength msg) msgs' stop
  end.

(** The response whose payload is the given frames and whose declared length
    is the length of that payload. *)
Definition framed (frames : list (list byte)) : Exchange :=
  response (len (concat frames)) (concat frames).

(** The errors logged and the sleeps taken in a trace, in order. *)
Definition logged (evs : list event) : list error :=
  flat_map (fun e => match e with EvLog err => [err] | _ => [] end) evs.

Definition sleeps (evs : list event) : list Z :=
  flat_map (fun e => match e with EvSleep ms => [ms] | _ => [] end) evs.

(** The messages sent on the channel in a trace, in order. *)
Definition sent (evs : list event) : list Message.t :=
  flat_map (fun e => match e with EvSend msg => [msg] | _ => [] end) evs.

(** The errors ConsumeUntilQuit logs over its polls: those of the passes
    that failed, end-of-stream left out. *)
Definition loggable (polls : list Exchange) : list error :=
  flat_map (fun io => match passError io with
                      | Some err => if isEOF err then [] else [err]
                      | None => []
                      end) polls.

(** * Properties *)

(** ** Bytes *)

Lemma byteval_range (b : byte) : 0 <= byteval b < 256.
Proof.
  unfold byteval. pose proof (Byte.to_N_bounded b). lia.
Qed.

Lemma bigEndian4_range (b0 b1 b2 b3 : byte) :
  0 <= bigEndian [b0; b1; b2; b3] < 2 ^ 32.
Proof.
  unfold bigEndian; simpl.
  pose proof (byteval_range b0); pose proof (byteval_range b1).
  pose proof (byteval_range b2); pose proof (byteval_range b3).
  change (2 ^ 32) with 4294967296. lia.
Qed.

Lemma len_nonneg {A : Type} (l : list A) : 0 <= len l.
Proof. unfold len. lia. Qed.

Lemma len_app {A : Type} (l1 l2 : list A) : len (l1 ++ l2) = len l1 + len l2.
Proof. unfold len. rewrite length_app. lia. Qed.

Lemma len_cons {A : Type} (a : A) (l : list A) : len (a :: l) = 1 + len l.
Proof. unfold len. simpl List.length. lia. Qed.

Lemma len_skipn {A : Type} (l : list A) (i : Z) :
  0 <= i <= len l -> len (skipn (Z.to_nat i) l) = len l - i.
Proof. unfold len. intros Hi. rewrite length_skipn. lia. Qed.

Lemma uint64_small (z : Z) : 0 <= z < 2 ^ 64 -> uint64 z = z.
Proof. intros Hz. unfold uint64. apply Z.mod_small. exact Hz. Qed.

Lemma uint32_small (z : Z) : 0 <= z < 2 ^ 32 -> uint32 z = z.
Proof. intros Hz. unfold uint32. apply Z.mod_small. exact Hz. Qed.

Lemma uint64_range (z : Z) : 0 <= uint64 z < 2 ^ 64.
Proof. unfold uint64. apply Z.mod_pos_bound. reflexivity. Qed.

Lemma uint32_range (z : Z) : 0 <= uint32 z < 2 ^ 32.
Proof. unfold uint32. apply Z.mod_pos_bound. reflexivity. Qed.

(** ** Decode *)

Lemma Decode_Some (packet : list byte) (msg : Message.t) :
  Decode packet = Some msg ->
  0 <= Message.totalLength msg < 2 ^ 32
  /\ 4 + Message.totalLength msg <= len packet
  /\ Message.offset msg = 0.
Proof.
  destruct packet as [|b0 [|b1 [|b2 [|b3 rest]]]]; try discriminate.
  unfold Decode.
  pose proof (bigEndian4_range b0 b1 b2 b3) as Hr.
  destruct (len rest <? bigEndian [b0; b1; b2; b3]) eqn:E; try discriminate.
  intros [= <-]. cbn [Message.totalLength Message.offset].
  apply Z.ltb_ge in E. rewrite !len_cons. split; [exact Hr|]. split; [lia|reflexivity].
Qed.


Lemma Decode_frame (f rest : list byte) :
  isFrame f = true -> Decode (f ++ rest) = Some (messageOf f 0).
Proof.
  destruct f as [|b0 [|b1 [|b2 [|b3 body]]]]; try discriminate.
  unfold isFrame. intros Hf. apply andb_true_iff in Hf. destruct Hf as [Hn _].
  apply Z.eqb_eq in Hn.
  cbn [app Decode]. rewrite Hn.
  replace (len (body ++ rest) <? len body) with false
    by (symmetry; apply Z.ltb_ge; rewrite len_app; pose proof (len_nonneg rest); lia).
  unfold messageOf. cbn [skipn]. unfold len at 1 2. rewrite Nat2Z.id.
  rewrite firstn_app, Nat.sub_diag, firstn_O, app_nil_r, firstn_all.
  rewrite !len_cons. do 2 f_equal. lia.
Qed.

(** ** The loop of consumeWithConn *)

Lemma sliceFrom_app (pre rest : list byte) :
  sliceFrom (pre ++ rest) (len pre) = Returned rest.
Proof.
  unfold sliceFrom. rewrite len_app.
  replace (len pre <=? len pre + len rest) with true
    by (symmetry; apply Z.leb_le; pose proof (len_nonneg rest); lia).
  unfold len. rewrite Nat2Z.id, skipn_app, skipn_all, Nat.sub_diag. reflexivity.
Qed.

Lemma isFrame_len (f : list byte) : isFrame f = true -> 8 <= len f.
Proof.
  destruct f as [|b0 [|b1 [|b2 [|b3 body]]]]; try discriminate.
  unfold isFrame. intros Hf. apply andb_true_iff in Hf. destruct Hf as [_ Hb].
  apply Z.leb_le in Hb. rewrite !len_cons. lia.
Qed.

Lemma len_concat_frames (frames : list (list byte)) :
  Forall (fun f => isFrame f = true) frames ->
  8 * len frames <= len (concat frames).
Proof.
  induction 1 as [|f frames Hf _ IH]; [reflexivity|].
  cbn [concat]. rewrite len_app, len_cons. apply isFrame_len in Hf. lia.
Qed.

Section Scan.

Context {St : Type}.
Variable handlerFunc : Message.t -> St -> St.

(** The loop is its walk, with the handler called along the way. *)
Lemma scan_walk (fuel : nat) (consumer : BrokerConsumer) (length : Z)
    (payload : list byte) :
  forall (currentOffset num : Z) (s : St),
    scan handlerFunc fuel consumer length payload currentOffset num s
    = r <- walk fuel length payload currentOffset ;;
      Returned (finish handlerFunc (offset consumer) num s r).
Proof.
  induction fuel as [|fuel IH]; intros cur num s; [reflexivity|].
  cbn [scan walk].
  destruct (cur <=? scanBound length);
    [|unfold finish; cbn; f_equal; f_equal; unfold len; cbn; lia].
  destruct (sliceFrom payload cur) as [packet| |]; cbn [bind]; try reflexivity.
  destruct (Decode packet) as [msg|].
  - cbn [Message.setOffset Message.totalLength]. rewrite IH.
    destruct (walk fuel length payload _) as [[steps fin]| |]; cbn [bind];
      try reflexivity.
    unfold finish. cbn [fst snd stamped map handleAll fold_left].
    rewrite len_cons.
    replace (num + 1 + len steps) with (num + (1 + len steps)) by lia.
    reflexivity.
  - unfold finish; cbn. do 2 f_equal. unfold len; cbn; lia.
Qed.

End Scan.

(** A walk over well-formed frames passes them one by one. *)
Lemma walk_over_frames (length : Z) (tail : list byte) :
  forall (frames : list (list byte)) (fuel : nat) (pre : list byte),
    Forall (fun f => isFrame f = true) frames ->
    len (pre ++ concat frames ++ tail) < 2 ^ 32 ->
    len pre + len (concat frames) <= scanBound length + 8 ->
    (List.length frames <= fuel)%nat ->
    walk fuel length (pre ++ concat frames ++ tail) (len pre)
    = r <- walk (fuel - List.length frames) length (pre ++ concat frames ++ tail)
             (len pre + len (concat frames)) ;;
      Returned (stepsOf (len pre) frames ++ fst r, snd r).
Proof.
  induction frames as [|f frames IH]; intros fuel pre Hall Hfit Hbound Hfuel.
  - cbn [concat List.length stepsOf app]. rewrite Nat.sub_0_r.
    change (len (@nil byte)) with 0. rewrite Z.add_0_r.
    destruct (walk fuel length _ (len pre)) as [[steps fin]| |]; reflexivity.
  - destruct fuel as [|fuel]; [cbn in Hfuel; lia|].
    inversion Hall as [|? ? Hf Hall']; subst.
    pose proof (isFrame_len f Hf) as Hf8.
    pose proof (len_concat_frames frames Hall') as Hrest.
    pose proof (len_nonneg frames) as Hk. pose proof (len_nonneg pre) as Hpre.
    pose proof (len_nonneg tail) as Htail.
    cbn [concat] in *. repeat rewrite len_app in Hfit. repeat rewrite len_app in Hbound.
    cbn [walk].
    replace (len pre <=? scanBound length) with true
      by (symmetry; apply Z.leb_le; lia).
    rewrite <- !app_assoc.
    rewrite sliceFrom_app. cbn [bind].
    rewrite (Decode_frame f _ Hf).
    cbn [messageOf Message.totalLength].
    replace (4 + (len f - 4)) with (len f) by lia.
    rewrite (uint32_small (len f)) by lia.
    rewrite (uint64_small (len f)) by lia.
    rewrite (uint64_small (len pre + len f)) by lia.
    replace (pre ++ f ++ concat frames ++ tail)
      with ((pre ++ f) ++ concat frames ++ tail) by (rewrite <- app_assoc; reflexivity).
    rewrite <- (len_app pre f).
    rewrite (IH fuel (pre ++ f) Hall').
    + cbn [List.length Nat.sub]. rewrite !len_app.
      replace (len pre + len f + len (concat frames))
        with (len pre + (len f + len (concat frames))) by lia.
      destruct (walk (fuel - List.length frames) length _ _) as [[steps fin]| |];
        reflexivity.
    + rewrite !len_app. lia.
    + rewrite len_app. lia.
    + cbn in Hfuel. lia.
Qed.

(** The messages of such a walk are the messages of the frames, each at the
    cursor plus the position of its frame. *)
Lemma stamped_stepsOf (base : Z) :
  forall (frames : list (list byte)) (pos : Z),
    0 <= base -> 0 <= pos -> base + pos + len (concat frames) < 2 ^ 64 ->
    stamped base (stepsOf pos frames) = messagesOf (base + pos) frames.
Proof.
  induction frames as [|f frames IH]; intros pos Hb Hp Hlt; [reflexivity|].
  cbn [concat] in Hlt. rewrite len_app in Hlt.
  pose proof (len_nonneg f). pose proof (len_nonneg (concat frames)).
  cbn [stepsOf stamped map messagesOf fst snd]. f_equal.
  - unfold Message.setOffset, messageOf; cbn. rewrite uint64_small by lia. reflexivity.
  - fold (stamped base (stepsOf (pos + len f) frames)).
    rewrite IH by lia. f_equal. lia.
Qed.

(** ** Messages of well-formed frames *)

Lemma encodedLengths_messagesOf (frames : list (list byte)) :
  forall o : Z, encodedLengths (messagesOf o frames) = len (concat frames).
Proof.
  induction frames as [|f frames IH]; intros o; [reflexivity|].
  cbn [messagesOf encodedLengths fold_right concat].
  fold (encodedLengths (messagesOf (o + len f) frames)).
  rewrite IH, len_app. unfold encodedLength, messageOf.
  cbn [Message.totalLength]. lia.
Qed.

Lemma messagesOf_length (frames : list (list byte)) :
  forall o : Z, List.length (messagesOf o frames) = List.length frames.
Proof.
  induction frames as [|f frames IH]; intros o; [reflexivity|].
  cbn [messagesOf List.length]. rewrite IH. reflexivity.
Qed.

Lemma messagesOf_lower (frames : list (list byte)) :
  forall o : Z,
    Forall (fun f => isFrame f = true) frames ->
    Forall (fun msg => o <= Message.offset msg) (messagesOf o frames).
Proof.
  induction frames as [|f frames IH]; intros o Hall; [constructor|].
  inversion Hall as [|? ? Hf Hall']; subst. apply isFrame_len in Hf.
  cbn [messagesOf]. constructor; [cbn; lia|].
  eapply Forall_impl; [|apply (IH (o + len f) Hall')]. cbn. intros msg Hm. lia.
Qed.

Lemma messagesOf_ascending (frames : list (list byte)) :
  forall o : Z,
    Forall (fun f => isFrame f = true) frames ->
    StronglySorted Z.lt (map Message.offset (messagesOf o frames)).
Proof.
  induction frames as [|f frames IH]; intros o Hall; [constructor|].
  inversion Hall as [|? ? Hf Hall']; subst.
  cbn [messagesOf map]. constructor; [apply IH; exact Hall'|].
  apply Forall_map. apply isFrame_len in Hf.
  eapply Forall_impl; [|apply (messagesOf_lower frames (o + len f) Hall')].
  cbn. intros msg Hm. lia.
Qed.

Lemma messagesOf_nth (frames : list (list byte)) :
  forall (o : Z) (i : nat) (f : list byte),
    nth_error frames i = Some f ->
    nth_error (messagesOf o frames) i
    = Some (messageOf f (o + len (concat (firstn i frames)))).
Proof.
  induction frames as [|g frames IH]; intros o i f Hi; [destruct i; discriminate|].
  destruct i as [|i]; cbn [nth_error firstn concat messagesOf] in *.
  - injection Hi as ->. change (len (@nil byte)) with 0. rewrite Z.add_0_r. reflexivity.
  - rewrite (IH _ _ _ Hi), len_app. do 2 f_equal. lia.
Qed.

Lemma stepsOf_length (frames : list (list byte)) :
  forall pos : Z, List.length (stepsOf pos frames) = List.length frames.
Proof.
  induction frames as [|f frames IH]; intros pos; [reflexivity|].
  cbn [stepsOf List.length]. rewrite IH. reflexivity.
Qed.

Lemma setOffset_same (consumer : BrokerConsumer) :
  setOffset consumer (offset consumer) = consumer.
Proof. destruct consumer; reflexivity. Qed.

Lemma scanBound_eq (length : Z) :
  4 <= length < 2 ^ 32 -> scanBound length = length - 4.
Proof.
  intros Hl. unfold scanBound.
  apply uint64_small. change (2 ^ 32) with 4294967296 in Hl.
  change (2 ^ 64) with 18446744073709551616. lia.
Qed.

(** C1, as the code has it: a response whose payload is K well-formed frames
    one after the other, with a declared length above 2 that covers the
    payload, makes consumeWithConn call the handler K times, once per frame
    and in the order of the frames; the i-th message gets the cursor plus the
    position of its frame as its offset, the offsets ascend, and the cursor
    moves forward by the sum of 4 + totalLength over the K frames, as long as
    the cursor plus the length of the payload stays below 2^64. *)
Theorem consumeWithConn_frames {St : Type} (handlerFunc : Message.t -> St -> St)
    (consumer : BrokerConsumer) (io : Exchange) (frames : list (list byte))
    (s : St) :
  Forall (fun f => isFrame f = true) frames ->
  write_err io = None -> read_err io = None ->
  resp_payload io = concat frames ->
  2 < resp_length io < 2 ^ 32 ->
  declares io ->
  0 <= offset consumer ->
  offset consumer + len (resp_payload io) < 2 ^ 64 ->
  let msgs := messagesOf (offset consumer) frames in
  exists err : option error,
    consumeWithConn handlerFunc consumer io s
    = Returned (len frames, err,
                setOffset consumer (offset consumer + encodedLengths msgs),
                handleAll handlerFunc msgs s)
    /\ (frames <> [] -> err = None)
    /\ List.length msgs = List.length frames
    /\ StronglySorted Z.lt (map Message.offset msgs)
    /\ (forall (i : nat) (f : list byte),
          nth_error frames i = Some f ->
          nth_error msgs i
          = Some (messageOf f (offset consumer + len (concat (firstn i frames))))).
Proof.
  intros Hall Hw Hr Hp Hlen Hdecl Hoff Hmax msgs.
  assert (Hrest : List.length msgs = List.length frames
                  /\ StronglySorted Z.lt (map Message.offset msgs)
                  /\ (forall (i : nat) (f : list byte),
                        nth_error frames i = Some f ->
                        nth_error msgs i
                        = Some (messageOf f (offset consumer
                                             + len (concat (firstn i frames)))))).
  { split; [apply messagesOf_length|].
    split; [apply messagesOf_ascending; exact Hall|].
    intros i f Hi. apply messagesOf_nth. exact Hi. }
  unfold declares in Hdecl. rewrite Hp in Hdecl, Hmax.
  unfold consumeWithConn. rewrite Hw, Hr, Hp.
  replace (resp_length io >? 2) with true by (symmetry; apply Z.gtb_lt; lia).
  rewrite scan_walk.
  destruct frames as [|f frames].
  - (* no frame at all: the declared length is 3 and the bound wraps around *)
    exists (Some ErrorDecodingMessage).
    cbn [concat] in *. change (len (@nil byte)) with 0 in Hdecl.
    assert (Hl : resp_length io = 3) by lia. rewrite Hl.
    subst msgs. cbn. rewrite Z.add_0_r, setOffset_same.
    split; [reflexivity|]. split; [intros Hne; contradiction|exact Hrest].
  - exists None.
    pose proof (len_concat_frames (f :: frames) Hall) as Hk.
    pose proof (len_nonneg frames) as Hk0. rewrite len_cons in Hk.
    assert (Hsb : scanBound (resp_length io) = resp_length io - 4)
      by (apply scanBound_eq; lia).
    pose proof (walk_over_frames (resp_length io) [] (f :: frames)
                  (S (List.length (concat (f :: frames)))) [] Hall) as Hwalk.
    cbn [app] in Hwalk. rewrite app_nil_r in Hwalk.
    change (len (@nil byte)) with 0 in Hwalk. rewrite Z.add_0_l in Hwalk.
    rewrite Hwalk; [|lia|lia|unfold len in Hk; rewrite length_cons in *; lia].
    assert (Hfuel : exists n, (S (List.length (concat (f :: frames)))
                               - List.length (f :: frames) = S n)%nat).
    { exists (List.length (concat (f :: frames)) - List.length (f :: frames))%nat.
      unfold len in Hk. rewrite length_cons in *. lia. }
    destruct Hfuel as [n ->]. cbn [walk].
    replace (len (concat (f :: frames)) <=? scanBound (resp_length io)) with false
      by (symmetry; apply Z.leb_gt; lia).
    cbn [bind fst snd]. rewrite app_nil_r.
    unfold finish. cbn [fst snd].
    rewrite (stamped_stepsOf (offset consumer) (f :: frames) 0) by lia.
    rewrite Z.add_0_r. fold msgs.
    subst msgs. rewrite encodedLengths_messagesOf.
    rewrite uint64_small by (pose proof (len_nonneg (concat (f :: frames))); lia).
    split; [|split; [reflexivity|exact Hrest]].
    unfold len at 1. rewrite stepsOf_length. reflexivity.
Qed.

Lemma consumeWithConn_frames_witness :
  exists err : option error,
    consumeWithConn record (consumerAt 100) (response 18 (frameA ++ frameB)) []
    = Returned (2, err, consumerAt 118,
                [messageOf frameA 100; messageOf frameB 108])
    /\ (err = None).
Proof.
  destruct (consumeWithConn_frames record (consumerAt 100)
              (response 18 (frameA ++ frameB)) [frameA; frameB] [])
    as [err [Hrun [Herr _]]].
  - repeat constructor.
  - reflexivity.
  - reflexivity.
  - reflexivity.
  - by_computation.
  - by_computation.
  - by_computation.
  - by_computation.
  - exists err. split; [exact Hrun|]. apply Herr. discriminate.
Defined.

(** C1 fails where the cursor is within a payload's length of 2^64: the sums
    wrap around, the second message gets an offset below the first and the
    cursor goes back. *)
Lemma consumeWithConn_frames_wrap :
  let consumer := consumerAt (2 ^ 64 - 8) in
  let io := response 16 (frameA ++ frameA) in
  Forall (fun f => isFrame f = true) [frameA; frameA]
  /\ resp_payload io = concat [frameA; frameA]
  /\ consumeWithConn record consumer io []
     = Returned (2, None, consumerAt 8,
                 [messageOf frameA (2 ^ 64 - 8); messageOf frameA 0])
  /\ ~ StronglySorted Z.lt [2 ^ 64 - 8; 0]
  /\ offset (consumerAt 8) <> offset consumer + 16.
Proof.
  cbv zeta. split; [repeat constructor|]. split; [reflexivity|].
  split; [vm_compute; reflexivity|]. split.
  - intros Hs. inversion Hs as [|? ? _ Hall]; subst.
    inversion Hall as [|? ? Hlt _]; subst. vm_compute in Hlt. discriminate.
  - vm_compute. discriminate.
Qed.

(** ** A pass that meets a frame it cannot decode *)

(** C3: when the scan reaches, after K well-formed frames, bytes that do not
    decode (a trailing frame cut short, say), consumeWithConn returns the
    decoding error and the consumer as it was: the cursor has not moved,
    although the K frames before were decoded and given to the handler. *)
Theorem consumeWithConn_decode_failure {St : Type}
    (handlerFunc : Message.t -> St -> St) (consumer : BrokerConsumer)
    (io : Exchange) (frames : list (list byte)) (tail : list byte) (s : St) :
  Forall (fun f => isFrame f = true) frames ->
  write_err io = None -> read_err io = None ->
  resp_payload io = concat frames ++ tail ->
  Decode tail = None ->
  fits io ->
  2 < resp_length io ->
  len (concat frames) <= scanBound (resp_length io) ->
  consumeWithConn handlerFunc consumer io s
  = Returned (len frames, Some ErrorDecodingMessage, consumer,
              handleAll handlerFunc
                (stamped (offset consumer) (stepsOf 0 frames)) s).
Proof.
  intros Hall Hw Hr Hp Htail Hfit Hlen Hreach.
  unfold fits in Hfit. rewrite Hp in Hfit.
  unfold consumeWithConn. rewrite Hw, Hr, Hp.
  replace (resp_length io >? 2) with true by (symmetry; apply Z.gtb_lt; lia).
  rewrite scan_walk.
  pose proof (len_concat_frames frames Hall) as Hk.
  pose proof (len_nonneg frames) as Hk0. pose proof (len_nonneg tail) as Ht0.
  pose proof (walk_over_frames (resp_length io) tail frames
                (S (List.length (concat frames ++ tail))) [] Hall) as Hwalk.
  cbn [app] in Hwalk. change (len (@nil byte)) with 0 in Hwalk.
  rewrite Z.add_0_l in Hwalk.
  assert (Hfuel : (List.length frames <= List.length (concat frames ++ tail))%nat).
  { rewrite len_app in Hfit. unfold len in *. rewrite length_app. lia. }
  rewrite Hwalk; [|exact Hfit|lia|lia].
  replace (S (List.length (concat frames ++ tail)) - List.length frames)%nat
    with (S (List.length (concat frames ++ tail) - List.length frames)) by lia.
  cbn [walk].
  replace (len (concat frames) <=? scanBound (resp_length io)) with true
    by (symmetry; apply Z.leb_le; exact Hreach).
  rewrite sliceFrom_app. cbn [bind]. rewrite Htail. cbn [bind fst snd].
  rewrite app_nil_r. unfold finish. cbn [fst snd].
  unfold len at 1. rewrite stepsOf_length. reflexivity.
Qed.

Lemma consumeWithConn_decode_failure_witness :
  consumeWithConn record (consumerAt 100) (response 14 (frameA ++ truncated)) []
  = Returned (1, Some ErrorDecodingMessage, consumerAt 100,
              [messageOf frameA 100]).
Proof.
  apply (consumeWithConn_decode_failure record (consumerAt 100)
           (response 14 (frameA ++ truncated)) [frameA] truncated []).
  - repeat constructor.
  - reflexivity.
  - reflexivity.
  - reflexivity.
  - reflexivity.
  - by_computation.
  - by_computation.
  - by_computation.
Defined.

(** C4, as the code has it: a pass that ends in an error leaves the cursor
    where it was at the start of the pass; the lengths of the frames decoded
    before the failure are not added. *)
Theorem consumeWithConn_error_keeps_cursor {St : Type}
    (handlerFunc : Message.t -> St -> St) (consumer consumer' : BrokerConsumer)
    (io : Exchange) (s s' : St) (num : Z) (err : error) :
  consumeWithConn handlerFunc consumer io s
  = Returned (num, Some err, consumer', s') ->
  consumer' = consumer.
Proof.
  unfold consumeWithConn.
  destruct (write_err io) as [e|]; [intros [= _ _ <- _]; reflexivity|].
  destruct (read_err io) as [e|]; [intros [= _ _ <- _]; reflexivity|].
  destruct (resp_length io >? 2); [|intros [= _ _ <- _]; reflexivity].
  destruct (scan _ _ _ _ _ _ _ _) as [[cur n t|n t]| |]; cbn [bind];
    try discriminate.
  intros [= _ _ <- _]; reflexivity.
Qed.

Lemma consumeWithConn_error_keeps_cursor_witness :
  consumerAt 100 = consumerAt 100.
Proof.
  apply (consumeWithConn_error_keeps_cursor record (consumerAt 100)
           (consumerAt 100) (response 14 (frameA ++ truncated))
           [] [messageOf frameA 100] 1 ErrorDecodingMessage).
  vm_compute. reflexivity.
Defined.

(** C4 fails: one frame of eight bytes is decoded and handled, the next one
    is cut short, and the cursor stays at 100 instead of moving to 108. *)
Lemma decode_failure_discards_pass :
  let consumer := consumerAt 100 in
  exists consumer' : BrokerConsumer,
    consumeWithConn record consumer (response 14 (frameA ++ truncated)) []
    = Returned (1, Some ErrorDecodingMessage, consumer', [messageOf frameA 100])
    /\ Decode (frameA ++ truncated) = Some (messageOf frameA 0)
    /\ Decode truncated = None
    /\ offset consumer'
       <> offset consumer + encodedLengths [messageOf frameA 100].
Proof.
  exists (consumerAt 100). repeat split; try (vm_compute; reflexivity).
  vm_compute. discriminate.
Qed.

(** ** Short responses *)

(** C7: a response with a declared length of at most 2 gives count 0 and no
    error; the handler is not called (its state is as before) and the
    consumer, its cursor with it, is unchanged. *)
Theorem consumeWithConn_short_response {St : Type}
    (handlerFunc : Message.t -> St -> St) (consumer : BrokerConsumer)
    (io : Exchange) (s : St) :
  write_err io = None -> read_err io = None ->
  resp_length io <= 2 ->
  consumeWithConn handlerFunc consumer io s = Returned (0, None, consumer, s).
Proof.
  intros Hw Hr Hlen. unfold consumeWithConn. rewrite Hw, Hr.
  replace (resp_length io >? 2) with false; [reflexivity|].
  symmetry. rewrite Z.gtb_ltb. apply Z.ltb_ge. exact Hlen.
Qed.

Lemma consumeWithConn_short_response_witness :
  consumeWithConn record (consumerAt 100) (response 2 [x00; x00]) []
  = Returned (0, None, consumerAt 100, []).
Proof.
  apply (consumeWithConn_short_response record (consumerAt 100)
           (response 2 [x00; x00]) []).
  - reflexivity.
  - reflexivity.
  - by_computation.
Defined.



(** ** GetOffsets *)

Lemma Uint32_word (w rest : list byte) :
  List.length w = 4%nat -> Uint32 (w ++ rest) = Returned (bigEndian w).
Proof.
  destruct w as [|b0 [|b1 [|b2 [|b3 [|b4 w]]]]]; try discriminate. reflexivity.
Qed.

Lemma Uint64_word (w rest : list byte) :
  List.length w = 8%nat -> Uint64 (w ++ rest) = Returned (bigEndian w).
Proof.
  destruct w as [|b0 [|b1 [|b2 [|b3 [|b4 [|b5 [|b6 [|b7 [|b8 w]]]]]]]]];
    try discriminate. reflexivity.
Qed.

Lemma len_concat_words (words : list (list byte)) :
  Forall (fun w => List.length w = 8%nat) words ->
  len (concat words) = 8 * len words.
Proof.
  induction 1 as [|w words Hw _ IH]; [reflexivity|].
  cbn [concat]. rewrite len_app, len_cons, IH. unfold len at 1. rewrite Hw. lia.
Qed.

(** The loop of GetOffsets over a payload of 8-byte words collects as many of
    them as the count field says, or all of them when it says more. *)
Lemma collectOffsets_words (length numOffsets : Z) :
  forall (words : list (list byte)) (fuel : nat) (pre : list byte)
         (offsets : list Z),
    Forall (fun w => List.length w = 8%nat) words ->
    len (pre ++ concat words) <= length <= len (pre ++ concat words) + 3 ->
    length < 2 ^ 32 ->
    4 <= len pre ->
    len offsets + len words < 2 ^ 32 ->
    (List.length words < fuel)%nat ->
    collectOffsets fuel length (pre ++ concat words) numOffsets (len pre) offsets
    = Returned (offsets
                ++ map bigEndian
                     (firstn (Z.to_nat (numOffsets - len offsets)) words)).
Proof.
  induction words as [|w words IH];
    intros fuel pre offsets Hall Hdecl Hlen Hpre Hcount Hfuel;
    (destruct fuel as [|fuel]; [cbn in Hfuel; lia|]);
    pose proof (len_nonneg offsets) as Ho.
  - cbn [concat] in *. rewrite app_nil_r in *. cbn [collectOffsets].
    rewrite scanBound_eq by lia.
    replace (len pre <? length - 4) with false by (symmetry; apply Z.ltb_ge; lia).
    cbn [andb]. rewrite firstn_nil. cbn [map]. rewrite app_nil_r. reflexivity.
  - inversion Hall as [|? ? Hw Hall']; subst.
    pose proof (len_concat_words words Hall') as Hws.
    pose proof (len_nonneg words) as Hk.
    assert (Hw8 : len w = 8) by (unfold len; rewrite Hw; reflexivity).
    cbn [concat] in *. rewrite len_cons in Hcount.
    repeat rewrite len_app in Hdecl.
    cbn [collectOffsets]. rewrite scanBound_eq by lia.
    replace (len pre <? length - 4) with true by (symmetry; apply Z.ltb_lt; lia).
    rewrite uint32_small by lia. cbn [andb].
    destruct (len offsets <? numOffsets) eqn:Hmore.
    + apply Z.ltb_lt in Hmore.
      rewrite sliceFrom_app. cbn [bind]. rewrite (Uint64_word w _ Hw). cbn [bind].
      rewrite uint64_small by (change (2 ^ 64) with 18446744073709551616;
                               change (2 ^ 32) with 4294967296 in Hlen; lia).
      rewrite <- Hw8, <- len_app, app_assoc.
      rewrite (IH fuel (pre ++ w) (offsets ++ [bigEndian w]) Hall').
      * rewrite len_app. change (len [bigEndian w]) with 1.
        replace (Z.to_nat (numOffsets - len offsets))
          with (S (Z.to_nat (numOffsets - (len offsets + 1)))) by lia.
        cbn [firstn map]. rewrite <- app_assoc. reflexivity.
      * repeat rewrite len_app. lia.
      * exact Hlen.
      * rewrite len_app. lia.
      * rewrite len_app. change (len [bigEndian w]) with 1. lia.
      * cbn in Hfuel. lia.
    + apply Z.ltb_ge in Hmore.
      replace (Z.to_nat (numOffsets - len offsets)) with 0%nat by lia.
      cbn [firstn map]. rewrite app_nil_r. reflexivity.
Qed.

(** The fuel of GetOffsets is enough: over a payload below 2^32 bytes its
    loop returns or panics, it is never cut off. *)
Lemma collectOffsets_finishes (length numOffsets : Z) (payload : list byte) :
  len payload < 2 ^ 32 ->
  forall (fuel : nat) (currentOffset : Z) (offsets : list Z),
    0 <= currentOffset <= len payload ->
    len payload - currentOffset < Z.of_nat fuel ->
    collectOffsets fuel length payload numOffsets currentOffset offsets
    <> Unfinished.
Proof.
  intros Hfit. induction fuel as [|fuel IH]; intros cur offsets Hcur Hfuel; [lia|].
  cbn [collectOffsets].
  destruct ((cur <? scanBound length) && (uint32 (len offsets) <? numOffsets));
    [|discriminate].
  unfold sliceFrom.
  replace (cur <=? len payload) with true by (symmetry; apply Z.leb_le; lia).
  cbn [bind].
  assert (Hrest : len (skipn (Z.to_nat cur) payload) = len payload - cur)
    by (apply len_skipn; lia).
  destruct (skipn (Z.to_nat cur) payload)
    as [|b0 [|b1 [|b2 [|b3 [|b4 [|b5 [|b6 [|b7 rest]]]]]]]];
    cbn [Uint64 bind]; try discriminate.
  rewrite !len_cons in Hrest. pose proof (len_nonneg rest) as Hr.
  change (2 ^ 32) with 4294967296 in Hfit.
  rewrite uint64_small by (change (2 ^ 64) with 18446744073709551616; lia).
  apply IH; lia.
Qed.

Lemma GetOffsets_finishes (consumer : BrokerConsumer) (time maxNumOffsets : Z)
    (connect_err : option error) (io : Exchange) :
  fits io ->
  GetOffsets consumer time maxNumOffsets connect_err io <> Unfinished.
Proof.
  intros Hfit. unfold fits in Hfit. unfold GetOffsets.
  destruct connect_err; [discriminate|].
  destruct (write_err io); [discriminate|].
  destruct (read_err io); [discriminate|].
  destruct (resp_length io >? 4); [|discriminate].
  unfold sliceFrom.
  replace (0 <=? len (resp_payload io)) with true
    by (symmetry; apply Z.leb_le; apply len_nonneg).
  cbn [Z.to_nat skipn bind].
  destruct (resp_payload io) as [|b0 [|b1 [|b2 [|b3 rest]]]] eqn:Hp;
    cbn [Uint32 bind]; try discriminate.
  rewrite <- Hp in *.
  assert (Hlen : 4 <= len (resp_payload io))
    by (rewrite Hp, !len_cons; pose proof (len_nonneg rest); lia).
  pose proof (collectOffsets_finishes (resp_length io)
                (bigEndian [b0; b1; b2; b3]) (resp_payload io) Hfit
                (S (List.length (resp_payload io))) 4 []) as Hloop.
  destruct (collectOffsets _ _ _ _ _ _) as [offsets| |]; cbn [bind];
    try discriminate.
  exfalso. apply Hloop; [lia|unfold len; lia|reflexivity].
Qed.

(** What cuts the list of GetOffsets off is the count field of the response
    and the end of the buffer: of a payload that is a 4-byte count and
    8-byte big-endian offsets after it, GetOffsets returns the first count
    offsets, or all of them when there are fewer.  maxNumOffsets, up to which
    the comment above GetOffsets promises the list to go, has no part in
    it. *)
Theorem GetOffsets_count_field (consumer : BrokerConsumer)
    (time maxNumOffsets : Z) (io : Exchange) (count : list byte)
    (words : list (list byte)) :
  write_err io = None -> read_err io = None ->
  resp_payload io = count ++ concat words ->
  List.length count = 4%nat ->
  Forall (fun w => List.length w = 8%nat) words ->
  4 < resp_length io < 2 ^ 32 ->
  declares io ->
  GetOffsets consumer time maxNumOffsets None io
  = Returned (map bigEndian (firstn (Z.to_nat (bigEndian count)) words), None).
Proof.
  intros Hw Hr Hp Hcount Hall Hlen Hdecl.
  unfold declares in Hdecl. rewrite Hp in Hdecl.
  pose proof (len_concat_words words Hall) as Hws.
  pose proof (len_nonneg words) as Hk.
  assert (Hc4 : len count = 4) by (unfold len; rewrite Hcount; reflexivity).
  unfold GetOffsets. rewrite Hw, Hr, Hp.
  replace (resp_length io >? 4) with true by (symmetry; apply Z.gtb_lt; lia).
  unfold sliceFrom at 1.
  replace (0 <=? len (count ++ concat words)) with true
    by (symmetry; apply Z.leb_le; apply len_nonneg).
  cbn [Z.to_nat skipn bind]. rewrite (Uint32_word count _ Hcount). cbn [bind].
  rewrite <- Hc4.
  rewrite (collectOffsets_words (resp_length io) (bigEndian count) words
             (S (List.length (count ++ concat words))) count [] Hall).
  - change (len (@nil Z)) with 0. rewrite Z.sub_0_r. reflexivity.
  - exact Hdecl.
  - lia.
  - lia.
  - change (len (@nil Z)) with 0. rewrite len_app in Hdecl. lia.
  - rewrite len_app in Hdecl. unfold len in *. rewrite length_app. lia.
Qed.

Lemma GetOffsets_count_field_witness :
  GetOffsets (consumerAt 0) (-1) 2 None (response 28 threeOffsets)
  = Returned ([300; 200; 100], None).
Proof.
  apply (GetOffsets_count_field (consumerAt 0) (-1) 2 (response 28 threeOffsets)
           countThree [word300; word200; word100]).
  - reflexivity.
  - reflexivity.
  - reflexivity.
  - reflexivity.
  - repeat constructor.
  - by_computation.
  - by_computation.
Defined.

(** C2, at its own input: of the payload [[count=3][300][200][100]]
    GetOffsets returns all three offsets although maxNumOffsets is 2, where
    the claim, and the comment above GetOffsets with it, have the list end
    after two. *)
Lemma GetOffsets_ignores_maxNumOffsets :
  let maxNumOffsets := 2 in
  resp_payload (response 28 threeOffsets)
  = countThree ++ word300 ++ word200 ++ word100
  /\ GetOffsets (consumerAt 0) (-1) maxNumOffsets None (response 28 threeOffsets)
     = Returned ([300; 200; 100], None)
  /\ GetOffsets (consumerAt 0) (-1) maxNumOffsets None (response 28 threeOffsets)
     <> Returned ([300; 200], None).
Proof.
  cbv zeta. split; [reflexivity|]. split; [vm_compute; reflexivity|].
  vm_compute. discriminate.
Qed.

(** ** Every pass returns, and what it does to the cursor *)

Lemma encodedLengths_app (l1 l2 : list Message.t) :
  encodedLengths (l1 ++ l2) = encodedLengths l1 + encodedLengths l2.
Proof.
  induction l1 as [|m l1 IH]; [reflexivity|].
  cbn [app encodedLengths fold_right].
  fold (encodedLengths (l1 ++ l2)). fold (encodedLengths l1). rewrite IH. lia.
Qed.

Lemma encodedLengths_stamped (base : Z) (steps : list (Z * Message.t)) :
  encodedLengths (stamped base steps) = encodedLengths (map snd steps).
Proof.
  induction steps as [|[p m] steps IH]; [reflexivity|].
  cbn [stamped map encodedLengths fold_right snd].
  fold (stamped base steps). fold (encodedLengths (stamped base steps)).
  fold (encodedLengths (map snd steps)). rewrite IH. reflexivity.
Qed.

Lemma handleAll_record (msgs seen : list Message.t) :
  handleAll record msgs seen = seen ++ msgs.
Proof.
  revert seen. induction msgs as [|m msgs IH]; intros seen.
  - cbn. rewrite app_nil_r. reflexivity.
  - cbn [handleAll fold_left]. fold (handleAll record msgs (record m seen)).
    rewrite IH. unfold record. rewrite <- app_assoc. reflexivity.
Qed.

(** With a payload below 2^32 bytes the walk returns: it neither leaves the
    payload nor stands still.  Where it runs to its bound, it ends at the sum
    of the encoded lengths of the messages it passed. *)
Lemma walk_total (length : Z) (payload : list byte) :
  len payload < 2 ^ 32 ->
  forall (fuel : nat) (currentOffset : Z),
    0 <= currentOffset <= len payload ->
    len payload - currentOffset < Z.of_nat fuel ->
    exists (steps : list (Z * Message.t)) (fin : option Z),
      walk fuel length payload currentOffset = Returned (steps, fin)
      /\ 0 <= encodedLengths (map snd steps)
      /\ currentOffset + encodedLengths (map snd steps) <= len payload
      /\ (forall e : Z, fin = Some e ->
            e = currentOffset + encodedLengths (map snd steps)).
Proof.
  intros Hfit. induction fuel as [|fuel IH]; intros cur Hcur Hfuel; [lia|].
  cbn [walk]. destruct (cur <=? scanBound length).
  - unfold sliceFrom.
    replace (cur <=? len payload) with true by (symmetry; apply Z.leb_le; lia).
    cbn [bind].
    destruct (Decode (skipn (Z.to_nat cur) payload)) as [msg|] eqn:Hdec.
    + apply Decode_Some in Hdec. destruct Hdec as [Hn [Hroom _]].
      rewrite len_skipn in Hroom by lia.
      change (2 ^ 32) with 4294967296 in *.
      rewrite (uint32_small (4 + Message.totalLength msg))
        by (change (2 ^ 32) with 4294967296; lia).
      rewrite (uint64_small (4 + Message.totalLength msg))
        by (change (2 ^ 64) with 18446744073709551616; lia).
      rewrite (uint64_small (cur + (4 + Message.totalLength msg)))
        by (change (2 ^ 64) with 18446744073709551616; lia).
      destruct (IH (cur + (4 + Message.totalLength msg))) as
        [steps [fin [Hwalk [Hpos [Hroom' Hfin]]]]]; [lia|lia|].
      rewrite Hwalk. cbn [bind fst snd].
      exists ((cur, msg) :: steps), fin. split; [reflexivity|].
      cbn [map snd encodedLengths fold_right].
      fold (encodedLengths (map snd steps)). unfold encodedLength.
      split; [lia|]. split; [lia|].
      intros e He. rewrite (Hfin e He). lia.
    + exists [], None. cbn. split; [reflexivity|]. split; [lia|].
      split; [lia|]. intros e He; discriminate.
  - exists [], (Some cur). cbn. split; [reflexivity|]. split; [lia|].
    split; [lia|]. intros e [= <-]. lia.
Qed.

(** A pass over a payload below 2^32 bytes returns, with the error and the
    bytes consumed that the exchange alone determines: the handler and the
    cursor have no part in them. *)
Lemma consumeWithConn_total {St : Type} (handlerFunc : Message.t -> St -> St)
    (consumer : BrokerConsumer) (io : Exchange) (s : St) :
  fits io ->
  exists (num : Z) (consumer' : BrokerConsumer) (s' : St),
    consumeWithConn handlerFunc consumer io s
    = Returned (num, passError io, consumer', s')
    /\ 0 <= consumedIn io
    /\ (passError io <> None -> consumer' = consumer /\ consumedIn io = 0)
    /\ (offset consumer' = offset consumer
        \/ offset consumer' = uint64 (offset consumer + consumedIn io))
    /\ (0 <= offset consumer < 2 ^ 64 ->
        offset consumer' = uint64 (offset consumer + consumedIn io)).
Proof.
  intros Hfit. unfold fits in Hfit.
  unfold passError, consumedIn, pass, consumeWithConn.
  destruct (write_err io) as [e|].
  { exists (-1), consumer, s. split; [reflexivity|]. split; [lia|].
    split; [intros _; split; reflexivity|]. split; [left; reflexivity|].
    intros Hr. rewrite Z.add_0_r, uint64_small by lia. reflexivity. }
  destruct (read_err io) as [e|].
  { exists (-1), consumer, s. split; [reflexivity|]. split; [lia|].
    split; [intros _; split; reflexivity|]. split; [left; reflexivity|].
    intros Hr. rewrite Z.add_0_r, uint64_small by lia. reflexivity. }
  destruct (resp_length io >? 2).
  2:{ exists 0, consumer, s. split; [reflexivity|]. cbn [encodedLengths fold_right].
      split; [lia|]. split; [intros Hne; contradiction|].
      split; [left; reflexivity|].
      intros Hr. rewrite Z.add_0_r, uint64_small by lia. reflexivity. }
  rewrite !scan_walk.
  destruct (walk_total (resp_length io) (resp_payload io) Hfit
              (S (List.length (resp_payload io))) 0)
    as [steps [fin [Hwalk [Hpos [_ Hfin]]]]].
  { pose proof (len_nonneg (resp_payload io)). lia. }
  { unfold len. lia. }
  rewrite Hwalk. cbn [bind]. unfold finish. cbn [fst snd].
  destruct fin as [e|].
  - rewrite (Hfin e eq_refl), Z.add_0_l.
    rewrite handleAll_record, app_nil_l, encodedLengths_stamped.
    eexists _, _, _. split; [reflexivity|]. split; [exact Hpos|].
    split; [intros Hne; contradiction|]. cbn [setOffset offset].
    split; [right; reflexivity|]. intros _; reflexivity.
  - eexists _, _, _. split; [reflexivity|]. split; [lia|].
    split; [intros _; split; reflexivity|]. split; [left; reflexivity|].
    intros Hr. rewrite Z.add_0_r, uint64_small by lia. reflexivity.
Qed.

(** ** Traces of the driving modes *)

Lemma closes_app (evs1 evs2 : list event) :
  closes (evs1 ++ evs2) = (closes evs1 + closes evs2)%nat.
Proof. unfold closes. rewrite filter_app, length_app. reflexivity. Qed.

Lemma closes_polling (evs : list event) : Forall polling evs -> closes evs = 0%nat.
Proof.
  induction 1 as [|e evs [He _] _ IH]; [reflexivity|].
  change (e :: evs) with ([e] ++ evs). rewrite closes_app, IH.
  destruct e; try reflexivity. contradiction.
Qed.

Lemma polling_handles (msgs : list Message.t) : Forall polling (map EvHandle msgs).
Proof.
  apply Forall_map, Forall_forall. intros msg _. split; discriminate.
Qed.

Section DriverTraces.

Context {H : Type}.
Variable handlerFunc : Message.t -> H -> H.

Lemma handleAll_invoke_events (msgs : list Message.t) :
  forall w : World H,
    events (handleAll (invoke handlerFunc) msgs w)
    = events w ++ map EvHandle msgs.
Proof.
  induction msgs as [|m msgs IH]; intros w.
  - cbn. rewrite app_nil_r. reflexivity.
  - cbn [handleAll fold_left map].
    fold (handleAll (invoke handlerFunc) msgs (invoke handlerFunc m w)).
    rewrite IH. cbn [invoke events]. rewrite <- app_assoc. reflexivity.
Qed.

(** A pass adds calls of the handler to the trace, and nothing else. *)
Lemma consumeWithConn_events (consumer consumer' : BrokerConsumer)
    (io : Exchange) (w w' : World H) (num : Z) (err : option error) :
  consumeWithConn (invoke handlerFunc) consumer io w
  = Returned (num, err, consumer', w') ->
  exists msgs : list Message.t, events w' = events w ++ map EvHandle msgs.
Proof.
  unfold consumeWithConn.
  destruct (write_err io) as [e|];
    [intros [= _ _ _ <-]; exists []; cbn; rewrite app_nil_r; reflexivity|].
  destruct (read_err io) as [e|];
    [intros [= _ _ _ <-]; exists []; cbn; rewrite app_nil_r; reflexivity|].
  destruct (resp_length io >? 2);
    [|intros [= _ _ _ <-]; exists []; cbn; rewrite app_nil_r; reflexivity].
  rewrite scan_walk.
  destruct (walk _ _ _ _) as [[steps fin]| |]; cbn [bind]; try discriminate.
  unfold finish. cbn [fst snd].
  destruct fin as [e|]; intros [= _ _ _ <-];
    exists (stamped (offset consumer) steps); apply handleAll_invoke_events.
Qed.

Lemma pollUntilQuit_events (pollTimeoutMs : Z) (polls : list Exchange) :
  forall (consumer consumer' : BrokerConsumer) (w w' : World H),
    pollUntilQuit handlerFunc pollTimeoutMs consumer polls w
    = Returned (consumer', w') ->
    exists evs : list event,
      events w' = events w ++ evs ++ [EvDone] /\ Forall polling evs.
Proof.
  induction polls as [|io polls IH]; intros consumer consumer' w w'.
  - cbn [pollUntilQuit]. intros [= _ <-]. exists []. split; [reflexivity|constructor].
  - cbn [pollUntilQuit].
    destruct (consumeWithConn _ consumer io w) as [[[[num err] c1] w1]| |] eqn:Hpass;
      cbn [bind]; try discriminate.
    destruct (consumeWithConn_events _ _ _ _ _ _ _ Hpass) as [msgs Hmsgs].
    intros Hrest. destruct (IH _ _ _ _ Hrest) as [evs [Hevs Hpolling]].
    assert (Hlog : exists logged : list event,
               events (emit (EvSleep pollTimeoutMs)
                         match err with
                         | Some e => if negb (isEOF e) then emit (EvLog e) w1 else w1
                         | None => w1
                         end)
               = events w1 ++ logged /\ Forall polling logged).
    { destruct err as [e|]; [destruct (negb (isEOF e))|]; cbn [emit events].
      - exists [EvLog e; EvSleep pollTimeoutMs]. rewrite <- app_assoc.
        split; [reflexivity|]. repeat constructor; discriminate.
      - exists [EvSleep pollTimeoutMs].
        split; [reflexivity|]. repeat constructor; discriminate.
      - exists [EvSleep pollTimeoutMs].
        split; [reflexivity|]. repeat constructor; discriminate. }
    destruct Hlog as [logged [Hlogged Hquiet]].
    exists (map EvHandle msgs ++ logged ++ evs).
    rewrite Hevs, Hlogged, Hmsgs, <- !app_assoc. split; [reflexivity|].
    apply Forall_app. split; [apply polling_handles|].
    apply Forall_app. split; assumption.
Qed.

Lemma pollUntilQuit_total (pollTimeoutMs : Z) (polls : list Exchange) :
  Forall fits polls ->
  forall (consumer : BrokerConsumer) (w : World H),
    exists (consumer' : BrokerConsumer) (w' : World H),
      pollUntilQuit handlerFunc pollTimeoutMs consumer polls w
      = Returned (consumer', w').
Proof.
  induction 1 as [|io polls Hfit _ IH]; intros consumer w.
  - eexists _, _. reflexivity.
  - cbn [pollUntilQuit].
    destruct (consumeWithConn_total (invoke handlerFunc) consumer io w Hfit)
      as [num [c1 [w1 [Hpass _]]]].
    rewrite Hpass. cbn [bind]. apply IH.
Qed.

(** Consume closes the connection it opened. *)
Lemma Consume_closes_once (consumer consumer' : BrokerConsumer)
    (io : Exchange) (w w' : World H) (num : Z) (err : option error) :
  Consume handlerFunc consumer None io w = Returned (num, err, consumer', w') ->
  closes (events w') = S (closes (events w)).
Proof.
  unfold Consume.
  destruct (consumeWithConn _ consumer io _) as [[[[n e] c1] w1]| |] eqn:Hpass;
    cbn [bind]; try discriminate.
  destruct (consumeWithConn_events _ _ _ _ _ _ _ Hpass) as [msgs Hmsgs].
  intros [= _ _ _ <-]. cbn [emit events] in *.
  destruct e as [e|]; cbn [emit events]; rewrite ?closes_app, Hmsgs, !closes_app;
    rewrite (closes_polling _ (polling_handles msgs)); cbn; lia.
Qed.

(** C6, as the code has it: when ConsumeUntilQuit returns, [done <- true] is
    the last event of its trace, so every call of the handler comes before
    the caller receives from done; but the connection it opened is not
    closed: the trace has no [conn.Close()], where Consume has one. *)
Theorem ConsumeUntilQuit_leaves_connection_open
    (consumer consumer' : BrokerConsumer) (pollTimeoutMs : Z)
    (polls : list Exchange) (w w' : World H) (messageCount skipped : Z)
    (err : option error) :
  ConsumeUntilQuit handlerFunc consumer pollTimeoutMs None polls w
  = Returned (messageCount, skipped, err, consumer', w') ->
  exists evs : list event,
    events w' = events w ++ EvConnect :: evs ++ [EvDone]
    /\ Forall polling evs
    /\ closes (events w') = closes (events w).
Proof.
  unfold ConsumeUntilQuit.
  destruct (pollUntilQuit _ _ _ _ _) as [[c1 w1]| |] eqn:Hpoll; cbn [bind];
    try discriminate.
  intros [= _ _ _ _ <-].
  destruct (pollUntilQuit_events _ _ _ _ _ _ Hpoll) as [evs [Hevs Hpolling]].
  exists evs. cbn [emit events] in Hevs. rewrite Hevs, <- app_assoc.
  split; [reflexivity|]. split; [exact Hpolling|].
  rewrite !closes_app, (closes_polling evs Hpolling). cbn. lia.
Qed.

(** C9: once the connection is there and the quit signal has come,
    ConsumeUntilQuit returns message count 0, skipped count 0 and no error,
    whatever the polls have delivered to the handler: it returns nothing
    else, and it does return when the payloads are below 2^32 bytes, as the
    payloads of response frames are. *)
Theorem ConsumeUntilQuit_counts_nothing (consumer : BrokerConsumer)
    (pollTimeoutMs : Z) (polls : list Exchange) (w : World H) :
  (forall r : Z * Z * option error * BrokerConsumer * World H,
     ConsumeUntilQuit handlerFunc consumer pollTimeoutMs None polls w
     = Returned r ->
     exists (consumer' : BrokerConsumer) (w' : World H),
       r = (0, 0, None, consumer', w'))
  /\ (Forall fits polls ->
      exists (consumer' : BrokerConsumer) (w' : World H),
        ConsumeUntilQuit handlerFunc consumer pollTimeoutMs None polls w
        = Returned (0, 0, None, consumer', w')).
Proof.
  unfold ConsumeUntilQuit. split.
  - intros r.
    destruct (pollUntilQuit _ _ _ _ _) as [[c1 w1]| |]; cbn [bind];
      try discriminate.
    intros [= <-]. exists c1, w1. reflexivity.
  - intros Hfit.
    destruct (pollUntilQuit_total pollTimeoutMs polls Hfit consumer
                (emit EvConnect w)) as [c1 [w1 Hpoll]].
    rewrite Hpoll. cbn [bind]. exists c1, w1. reflexivity.
Qed.

End DriverTraces.

Lemma ConsumeUntilQuit_leaves_connection_open_witness :
  exists evs : list event,
    [EvConnect; EvHandle (messageOf frameA 100); EvSleep 10; EvDone]
    = [] ++ EvConnect :: evs ++ [EvDone]
    /\ Forall polling evs
    /\ closes [EvConnect; EvHandle (messageOf frameA 100); EvSleep 10; EvDone]
       = closes [].
Proof.
  apply (ConsumeUntilQuit_leaves_connection_open record (consumerAt 100)
           (consumerAt 108) 10 [response 8 frameA] (quiet [])
           {| user := [messageOf frameA 100];
              events := [EvConnect; EvHandle (messageOf frameA 100);
                         EvSleep 10; EvDone] |}
           0 0 None).
  vm_compute. reflexivity.
Defined.

Lemma ConsumeUntilQuit_counts_nothing_witness :
  exists (consumer' : BrokerConsumer) (w' : World (list Message.t)),
    ConsumeUntilQuit record (consumerAt 100) 10 None
      [response 18 (frameA ++ frameB); failedRead io_EOF] (quiet [])
    = Returned (0, 0, None, consumer', w').
Proof.
  apply (proj2 (ConsumeUntilQuit_counts_nothing record (consumerAt 100) 10
                  [response 18 (frameA ++ frameB); failedRead io_EOF]
                  (quiet []))).
  repeat constructor.
Defined.

(** ** The loop of ConsumeOnChannel *)

(** C5, as the code has it: the polling loop of ConsumeOnChannel ends with
    the first pass that returns an error, end-of-stream as well as any other;
    end-of-stream differs only in that it is not logged: the world at the
    end is the world the failed pass left, with the error logged unless it
    is end-of-stream, and done signalled.  The polls after that pass do not
    take place. *)
Theorem pollOnChannel_stops_on_any_error (pollTimeoutMs : Z)
    (consumer : BrokerConsumer) (io : Exchange) (polls : list Exchange)
    (w : World Z) (err : error) :
  fits io ->
  passError io = Some err ->
  exists w' : World Z,
    pollOnChannel pollTimeoutMs consumer (io :: polls) w
    = Returned (consumer,
                emit EvDone (if isEOF err then w' else emit (EvLog err) w'))
    /\ pollOnChannel pollTimeoutMs consumer (io :: polls) w
       = pollOnChannel pollTimeoutMs consumer [io] w
    /\ exists num : Z,
         consumeWithConn sendOnChannel consumer io w
         = Returned (num, Some err, consumer, w').
Proof.
  intros Hfit Herr.
  destruct (consumeWithConn_total sendOnChannel consumer io w Hfit)
    as [num [c1 [w1 [Hpass [_ [Hkeep _]]]]]].
  rewrite Herr in Hpass, Hkeep.
  destruct Hkeep as [-> _]; [discriminate|].
  exists w1. cbn [pollOnChannel]. rewrite Hpass. cbn [bind].
  split; [destruct (isEOF err); reflexivity|].
  split; [destruct (isEOF err); reflexivity|].
  exists num. reflexivity.
Qed.

Lemma pollOnChannel_stops_on_any_error_witness :
  exists w' : World Z,
    pollOnChannel 10 (consumerAt 100)
      [failedRead io_EOF; response 8 frameA] (quiet 0)
    = Returned (consumerAt 100,
                emit EvDone (if isEOF io_EOF then w' else emit (EvLog io_EOF) w'))
    /\ pollOnChannel 10 (consumerAt 100)
         [failedRead io_EOF; response 8 frameA] (quiet 0)
       = pollOnChannel 10 (consumerAt 100) [failedRead io_EOF] (quiet 0)
    /\ exists num : Z,
         consumeWithConn sendOnChannel (consumerAt 100) (failedRead io_EOF)
           (quiet 0)
         = Returned (num, Some io_EOF, consumerAt 100, w').
Proof.
  apply (pollOnChannel_stops_on_any_error 10 (consumerAt 100)
           (failedRead io_EOF) [response 8 frameA] (quiet 0) io_EOF).
  - by_computation.
  - reflexivity.
Defined.

(** C5 fails: the first poll ends in end-of-stream and the loop is over; the
    message of the second poll is never sent, as it would be had the loop
    gone on to the next poll. *)
Lemma pollOnChannel_stops_on_EOF :
  let consumer := consumerAt 100 in
  let later := [response 8 frameA; failedRead (NetError 1)] in
  consumeWithConn sendOnChannel consumer (failedRead io_EOF) (quiet 0)
  = Returned (-1, Some io_EOF, consumer, quiet 0)
  /\ pollOnChannel 10 consumer (failedRead io_EOF :: later) (quiet 0)
     = Returned (consumer, {| user := 0; events := [EvDone] |})
  /\ pollOnChannel 10 consumer later (emit (EvSleep 10) (quiet 0))
     = Returned (consumerAt 108,
                 {| user := 1;
                    events := [EvSleep 10; EvSend (messageOf frameA 100);
                               EvSleep 10; EvLog (NetError 1); EvDone] |})
  /\ pollOnChannel 10 consumer (failedRead io_EOF :: later) (quiet 0)
     <> pollOnChannel 10 consumer later (emit (EvSleep 10) (quiet 0)).
Proof.
  cbv zeta. repeat split; try (vm_compute; reflexivity).
  vm_compute. discriminate.
Qed.

(** ** The cursor over sequences of operations *)

Lemma uint64_add_l (a b : Z) : uint64 (uint64 a + b) = uint64 (a + b).
Proof. unfold uint64. apply Zplus_mod_idemp_l. Qed.

Lemma consumedByPolls_nonneg (polls : list Exchange) :
  Forall fits polls -> 0 <= consumedByPolls polls.
Proof.
  induction 1 as [|io polls Hfit _ IH]; [reflexivity|].
  cbn [consumedByPolls fold_right]. fold (consumedByPolls polls).
  destruct (consumeWithConn_total record (consumerAt 0) io [] Hfit)
    as [_ [_ [_ [_ [Hpos _]]]]]. lia.
Qed.

Lemma consumedOnChannel_nonneg (polls : list Exchange) :
  Forall fits polls -> 0 <= consumedOnChannel polls.
Proof.
  induction 1 as [|io polls Hfit _ IH]; [reflexivity|].
  cbn [consumedOnChannel].
  destruct (consumeWithConn_total record (consumerAt 0) io [] Hfit)
    as [_ [_ [_ [_ [Hpos _]]]]].
  destruct (passError io); lia.
Qed.

Lemma pollUntilQuit_cursor {H : Type} (handlerFunc : Message.t -> H -> H)
    (pollTimeoutMs : Z) (polls : list Exchange) :
  Forall fits polls ->
  forall (consumer consumer' : BrokerConsumer) (w w' : World H),
    0 <= offset consumer < 2 ^ 64 ->
    pollUntilQuit handlerFunc pollTimeoutMs consumer polls w
    = Returned (consumer', w') ->
    offset consumer' = uint64 (offset consumer + consumedByPolls polls).
Proof.
  induction 1 as [|io polls Hfit _ IH]; intros consumer consumer' w w' Hrange.
  - cbn [pollUntilQuit consumedByPolls fold_right]. intros [= <- _].
    rewrite Z.add_0_r, uint64_small by exact Hrange. reflexivity.
  - cbn [pollUntilQuit consumedByPolls fold_right]. fold (consumedByPolls polls).
    destruct (consumeWithConn_total (invoke handlerFunc) consumer io w Hfit)
      as [num [c1 [w1 [Hpass [_ [_ [_ Hcur]]]]]]].
    rewrite Hpass. cbn [bind]. intros Hrest.
    apply IH in Hrest; [|rewrite (Hcur Hrange); apply uint64_range].
    rewrite Hrest, (Hcur Hrange), uint64_add_l. f_equal. lia.
Qed.

Lemma pollOnChannel_cursor (pollTimeoutMs : Z) (polls : list Exchange) :
  Forall fits polls ->
  forall (consumer consumer' : BrokerConsumer) (w w' : World Z),
    0 <= offset consumer < 2 ^ 64 ->
    pollOnChannel pollTimeoutMs consumer polls w = Returned (consumer', w') ->
    offset consumer' = uint64 (offset consumer + consumedOnChannel polls).
Proof.
  induction 1 as [|io polls Hfit _ IH]; intros consumer consumer' w w' Hrange.
  - cbn [pollOnChannel]. discriminate.
  - cbn [pollOnChannel consumedOnChannel].
    destruct (consumeWithConn_total sendOnChannel consumer io w Hfit)
      as [num [c1 [w1 [Hpass [_ [Hkeep [_ Hcur]]]]]]].
    rewrite Hpass. cbn [bind]. destruct (passError io) as [e|].
    + intros [= <- _]. destruct Hkeep as [-> _]; [discriminate|].
      rewrite Z.add_0_r, uint64_small by exact Hrange. reflexivity.
    + intros Hrest.
      apply IH in Hrest; [|rewrite (Hcur Hrange); apply uint64_range].
      rewrite Hrest, (Hcur Hrange), uint64_add_l. f_equal. lia.
Qed.

(** What one operation does to the cursor. *)
Lemma perform_cursor (op : operation) (consumer consumer' : BrokerConsumer) :
  opFits op ->
  0 <= offset consumer < 2 ^ 64 ->
  perform op consumer = Returned consumer' ->
  offset consumer' = uint64 (offset consumer + consumedBy op)
  /\ 0 <= consumedBy op.
Proof.
  intros Hfit Hrange.
  assert (Hsame : offset consumer = uint64 (offset consumer + 0))
    by (rewrite Z.add_0_r, uint64_small by exact Hrange; reflexivity).
  destruct op as [ce io|ms ce polls|ms ce polls|time n ce io];
    unfold opFits in Hfit; cbn [passesOf] in Hfit; cbn [perform consumedBy].
  - destruct ce as [e|]; [cbn; intros [= <-]; split; [exact Hsame|lia]|].
    inversion Hfit as [|? ? Hio _]; subst. unfold Consume.
    destruct (consumeWithConn_total (invoke record) consumer io
                (emit EvConnect (quiet [])) Hio)
      as [num [c1 [w1 [Hpass [Hpos [_ [_ Hcur]]]]]]].
    rewrite Hpass. cbn [bind]. intros [= <-].
    split; [apply Hcur; exact Hrange|exact Hpos].
  - destruct ce as [e|]; [cbn; intros [= <-]; split; [exact Hsame|lia]|].
    unfold ConsumeUntilQuit.
    destruct (pollUntilQuit _ _ _ _ _) as [[c1 w1]| |] eqn:Hpoll; cbn [bind];
      try discriminate.
    intros [= <-]. split; [|apply consumedByPolls_nonneg; exact Hfit].
    eapply pollUntilQuit_cursor; eassumption.
  - destruct ce as [e|]; [cbn; intros [= <-]; split; [exact Hsame|lia]|].
    unfold ConsumeOnChannel.
    destruct (pollOnChannel _ _ _ _) as [[c1 w1]| |] eqn:Hpoll; cbn [bind];
      try discriminate.
    intros [= <-]. split; [|apply consumedOnChannel_nonneg; exact Hfit].
    eapply pollOnChannel_cursor; eassumption.
  - destruct (GetOffsets _ _ _ _ _) as [r| |]; cbn [bind]; try discriminate.
    intros [= <-]. split; [exact Hsame|lia].
Qed.

Lemma performAll_cursor (ops : list operation) :
  Forall opFits ops ->
  forall consumer consumer' : BrokerConsumer,
    0 <= offset consumer < 2 ^ 64 ->
    performAll ops consumer = Returned consumer' ->
    offset consumer' = uint64 (offset consumer + consumedByAll ops)
    /\ 0 <= consumedByAll ops.
Proof.
  induction 1 as [|op ops Hfit _ IH]; intros consumer consumer' Hrange.
  - cbn. intros [= <-]. rewrite Z.add_0_r, uint64_small by exact Hrange.
    split; [reflexivity|lia].
  - cbn [performAll consumedByAll fold_right]. fold (consumedByAll ops).
    destruct (perform op consumer) as [c1| |] eqn:Hop; cbn [bind];
      try discriminate.
    destruct (perform_cursor op consumer c1 Hfit Hrange Hop) as [Hc1 Hpos].
    intros Hrest.
    apply IH in Hrest; [|rewrite Hc1; apply uint64_range].
    destruct Hrest as [Hc' Hpos']. split; [|lia].
    rewrite Hc', Hc1, uint64_add_l. f_equal. lia.
Qed.

Lemma consumedByAll_app (ops1 ops2 : list operation) :
  consumedByAll (ops1 ++ ops2) = consumedByAll ops1 + consumedByAll ops2.
Proof.
  induction ops1 as [|op ops1 IH]; [reflexivity|].
  cbn [app consumedByAll fold_right].
  fold (consumedByAll (ops1 ++ ops2)). fold (consumedByAll ops1).
  rewrite IH. lia.
Qed.

Lemma consumedBy_nonneg (op : operation) : opFits op -> 0 <= consumedBy op.
Proof.
  unfold opFits. destruct op as [[e|] io|ms [e|] polls|ms [e|] polls|time n ce io];
    cbn [passesOf consumedBy]; intros Hfit; try lia.
  - inversion Hfit as [|? ? Hio _]; subst.
    destruct (consumeWithConn_total record (consumerAt 0) io [] Hio)
      as [_ [_ [_ [_ [Hpos _]]]]]. exact Hpos.
  - apply consumedByPolls_nonneg; exact Hfit.
  - apply consumedOnChannel_nonneg; exact Hfit.
Qed.

Lemma consumedByAll_nonneg (ops : list operation) :
  Forall opFits ops -> 0 <= consumedByAll ops.
Proof.
  induction 1 as [|op ops Hfit _ IH]; [reflexivity|].
  cbn [consumedByAll fold_right]. fold (consumedByAll ops).
  apply consumedBy_nonneg in Hfit. lia.
Qed.

(** C8, as the code has it: the cursor is the base offset of the constructor
    plus the bytes consumed so far, modulo 2^64.  After any sequence of
    Consume, ConsumeUntilQuit, ConsumeOnChannel and GetOffsets the offset is
    the base plus the encoded lengths of the frames of all passes that ended
    without an error, wrapped to 64 bits; as long as that sum stays below
    2^64 it is the sum itself, and the offset after any earlier part of the
    sequence is not above the offset after the whole of it.  Every single
    pass leaves the cursor alone when it ends in an error and adds the bytes
    it consumed (none, some or all of the payload) otherwise. *)
Theorem cursor_follows_consumed (hostname topic : string)
    (partition base maxSize : Z) (ops : list operation)
    (consumer' : BrokerConsumer) :
  0 <= base < 2 ^ 64 ->
  Forall opFits ops ->
  performAll ops (NewBrokerConsumer hostname topic partition base maxSize)
  = Returned consumer' ->
  offset consumer' = uint64 (base + consumedByAll ops)
  /\ (base + consumedByAll ops < 2 ^ 64 ->
      offset consumer' = base + consumedByAll ops
      /\ forall (ops1 ops2 : list operation) (consumer1 : BrokerConsumer),
           ops = ops1 ++ ops2 ->
           performAll ops1
             (NewBrokerConsumer hostname topic partition base maxSize)
           = Returned consumer1 ->
           offset consumer1 = base + consumedByAll ops1
           /\ base <= offset consumer1 <= offset consumer')
  /\ (forall (St : Type) (handlerFunc : Message.t -> St -> St)
             (consumer : BrokerConsumer) (io : Exchange) (s : St),
        fits io ->
        0 <= offset consumer < 2 ^ 64 ->
        exists (num : Z) (err : option error) (consumer1 : BrokerConsumer)
               (s1 : St),
          consumeWithConn handlerFunc consumer io s
          = Returned (num, err, consumer1, s1)
          /\ 0 <= consumedIn io
          /\ offset consumer1 = uint64 (offset consumer + consumedIn io)
          /\ (err <> None -> consumer1 = consumer)).
Proof.
  intros Hbase Hfit Hrun.
  destruct (performAll_cursor ops Hfit
              (NewBrokerConsumer hostname topic partition base maxSize)
              consumer' Hbase Hrun) as [Hcur Hpos].
  cbn [NewBrokerConsumer offset] in Hcur.
  split; [exact Hcur|]. split.
  - intros Hmax.
    assert (Hall : offset consumer' = base + consumedByAll ops)
      by (rewrite Hcur; apply uint64_small; lia).
    split; [exact Hall|].
    intros ops1 ops2 consumer1 -> Hrun1.
    apply Forall_app in Hfit. destruct Hfit as [Hfit1 Hfit2].
    destruct (performAll_cursor ops1 Hfit1
                (NewBrokerConsumer hostname topic partition base maxSize)
                consumer1 Hbase Hrun1) as [Hcur1 Hpos1].
    cbn [NewBrokerConsumer offset] in Hcur1.
    pose proof (consumedByAll_nonneg ops2 Hfit2) as Hpos2.
    rewrite consumedByAll_app in Hall, Hmax.
    rewrite uint64_small in Hcur1 by lia. lia.
  - intros St handlerFunc consumer io s Hio Hrange.
    destruct (consumeWithConn_total handlerFunc consumer io s Hio)
      as [num [c1 [s1 [Hpass [Hpos' [Hkeep [_ Hcur']]]]]]].
    exists num, (passError io), c1, s1.
    split; [exact Hpass|]. split; [exact Hpos'|].
    split; [apply Hcur'; exact Hrange|].
    intros Hne. apply Hkeep in Hne. apply Hne.
Qed.

Lemma cursor_follows_consumed_witness :
  offset (consumerAt 134) = uint64 (100 + consumedByAll sampleOps)
  /\ (100 + consumedByAll sampleOps < 2 ^ 64 ->
      offset (consumerAt 134) = 100 + consumedByAll sampleOps).
Proof.
  destruct (cursor_follows_consumed "localhost:9092" "test" 0 100 1048576
              sampleOps (consumerAt 134)) as [Hcur [Hsum _]].
  - by_computation.
  - repeat constructor.
  - vm_compute. reflexivity.
  - split; [exact Hcur|]. intros Hmax. apply Hsum. exact Hmax.
Defined.

(** C8 fails at the top of the range: a consumer built at offset 2^64 - 4
    that consumes one frame of eight bytes is at offset 4 afterwards, below
    where it was and not at the base plus eight. *)
Lemma cursor_wraps_around :
  let consumer := NewBrokerConsumer "localhost:9092" "test" 0 (2 ^ 64 - 4) 1048576 in
  performAll [DoConsume None (response 8 frameA)] consumer
  = Returned (consumerAt 4)
  /\ consumedIn (response 8 frameA) = 8
  /\ offset (consumerAt 4) < offset consumer
  /\ offset (consumerAt 4) <> offset consumer + 8.
Proof.
  cbv zeta. repeat split; try (vm_compute; reflexivity).
  vm_compute. discriminate.
Qed.

(** * Further properties of consumer.go *)

(** ** consumeWithConn: delivery *)

Lemma uint64_le (z : Z) : 0 <= z -> 0 <= uint64 z <= z.
Proof.
  intros Hz. unfold uint64. split; [apply Z.mod_pos_bound; reflexivity|].
  apply Z.mod_le; [exact Hz|reflexivity].
Qed.

Lemma uint32_le (z : Z) : 0 <= z -> 0 <= uint32 z <= z.
Proof.
  intros Hz. unfold uint32. split; [apply Z.mod_pos_bound; reflexivity|].
  apply Z.mod_le; [exact Hz|reflexivity].
Qed.

(** The walk stays inside the payload, whatever its length and whatever
    length the response declares. *)
Lemma walk_never_panics (length : Z) (payload : list byte) :
  forall (fuel : nat) (currentOffset : Z),
    0 <= currentOffset <= len payload ->
    walk fuel length payload currentOffset <> Panicked.
Proof.
  induction fuel as [|fuel IH]; intros cur Hcur; [discriminate|].
  cbn [walk]. destruct (cur <=? scanBound length); [|discriminate].
  unfold sliceFrom.
  replace (cur <=? len payload) with true by (symmetry; apply Z.leb_le; lia).
  cbn [bind].
  destruct (Decode (skipn (Z.to_nat cur) payload)) as [msg|] eqn:Hdec;
    [|discriminate].
  apply Decode_Some in Hdec. destruct Hdec as [Hn [Hroom _]].
  rewrite len_skipn in Hroom by lia.
  pose proof (uint32_le (4 + Message.totalLength msg)) as H32.
  pose proof (uint64_le (uint32 (4 + Message.totalLength msg))) as H64.
  pose proof (uint64_le (cur + uint64 (uint32 (4 + Message.totalLength msg))))
    as Hnext.
  specialize (IH (uint64 (cur + uint64 (uint32 (4 + Message.totalLength msg))))).
  destruct (walk fuel length payload _) as [[steps fin]| |]; cbn [bind];
    try discriminate.
  exfalso. apply IH; [lia|reflexivity].
Qed.

(** X1: consumeWithConn never indexes its payload out of range: whatever the
    response declares as its length and whatever its payload holds,
    [payload[currentOffset:]] is taken inside the payload and the call does
    not panic. *)
Theorem consumeWithConn_never_panics {St : Type}
    (handlerFunc : Message.t -> St -> St) (consumer : BrokerConsumer)
    (io : Exchange) (s : St) :
  consumeWithConn handlerFunc consumer io s <> Panicked.
Proof.
  unfold consumeWithConn.
  destruct (write_err io); [discriminate|].
  destruct (read_err io); [discriminate|].
  destruct (resp_length io >? 2); [|discriminate].
  rewrite scan_walk.
  pose proof (walk_never_panics (resp_length io) (resp_payload io)
                (S (List.length (resp_payload io))) 0) as Hwalk.
  destruct (walk _ _ _ _) as [[steps [e|]]| |]; cbn [bind finish fst snd];
    try discriminate.
  exfalso. apply Hwalk; [|reflexivity].
  pose proof (len_nonneg (resp_payload io)). lia.
Qed.

(** A pass with any handler is the pass with the handler that writes the
    messages down, followed by the handler run over what was written. *)
Lemma consumeWithConn_as_recorded {St : Type}
    (handlerFunc : Message.t -> St -> St) (consumer : BrokerConsumer)
    (io : Exchange) (s : St) :
  consumeWithConn handlerFunc consumer io s
  = r <- consumeWithConn record consumer io [] ;;
    let '(num, err, consumer', msgs) := r in
    Returned (num, err, consumer', handleAll handlerFunc msgs s).
Proof.
  unfold consumeWithConn.
  destruct (write_err io); [reflexivity|].
  destruct (read_err io); [reflexivity|].
  destruct (resp_length io >? 2); [|reflexivity].
  rewrite !scan_walk.
  destruct (walk _ _ _ _) as [[steps [e|]]| |]; cbn [bind finish fst snd];
    try reflexivity; rewrite handleAll_record; reflexivity.
Qed.

(** X3: the count consumeWithConn returns is the number of handler calls it
    made, also when the pass ends in a decoding error; it is -1, with no
    call made and the consumer untouched, exactly when the request could not
    be written or the response not be read. *)
Theorem consumeWithConn_count (consumer consumer' : BrokerConsumer)
    (io : Exchange) (num : Z) (err : option error) (msgs : list Message.t) :
  consumeWithConn record consumer io [] = Returned (num, err, consumer', msgs) ->
  (write_err io = None -> read_err io = None -> num = len msgs)
  /\ (write_err io <> None \/ read_err io <> None ->
      num = -1 /\ msgs = [] /\ err <> None /\ consumer' = consumer).
Proof.
  unfold consumeWithConn.
  destruct (write_err io) as [e|].
  { intros [= <- <- <- <-]. split; [discriminate|].
    intros _. repeat split. discriminate. }
  destruct (read_err io) as [e|].
  { intros [= <- <- <- <-]. split; [discriminate|].
    intros _. repeat split. discriminate. }
  intros Hrun. split; [intros _ _|intros [Hne|Hne]; contradiction].
  destruct (resp_length io >? 2); [|injection Hrun as <- _ _ <-; reflexivity].
  rewrite scan_walk in Hrun.
  destruct (walk _ _ _ _) as [[steps [e|]]| |]; cbn [bind finish fst snd] in Hrun;
    try discriminate; injection Hrun as <- _ _ <-;
    rewrite handleAll_record, app_nil_l; unfold stamped, len;
    rewrite length_map; lia.
Qed.

Lemma consumeWithConn_count_witness :
  (write_err (response 14 (frameA ++ truncated)) = None ->
   read_err (response 14 (frameA ++ truncated)) = None ->
   1 = len [messageOf frameA 100])
  /\ (write_err (response 14 (frameA ++ truncated)) <> None
      \/ read_err (response 14 (frameA ++ truncated)) <> None ->
      1 = -1 /\ [messageOf frameA 100] = [] /\ Some ErrorDecodingMessage <> None
      /\ consumerAt 100 = consumerAt 100).
Proof.
  apply (consumeWithConn_count (consumerAt 100) (consumerAt 100)
           (response 14 (frameA ++ truncated)) 1 (Some ErrorDecodingMessage)
           [messageOf frameA 100]).
  vm_compute. reflexivity.
Defined.

(** The messages of a walk lie end to end from where the walk begins. *)
Lemma walk_tiles (base length : Z) (payload : list byte) :
  len payload < 2 ^ 32 ->
  0 <= base -> base + len payload < 2 ^ 64 ->
  forall (fuel : nat) (currentOffset : Z) (steps : list (Z * Message.t))
         (fin : option Z),
    0 <= currentOffset <= len payload ->
    walk fuel length payload currentOffset = Returned (steps, fin) ->
    exists stop : Z,
      tiles (base + currentOffset) (stamped base steps) (base + stop)
      /\ currentOffset <= stop <= len payload
      /\ (forall e : Z, fin = Some e -> e = stop).
Proof.
  intros Hfit Hbase Hmax.
  induction fuel as [|fuel IH]; intros cur steps fin Hcur; [discriminate|].
  cbn [walk]. destruct (cur <=? scanBound length).
  - unfold sliceFrom.
    replace (cur <=? len payload) with true by (symmetry; apply Z.leb_le; lia).
    cbn [bind].
    destruct (Decode (skipn (Z.to_nat cur) payload)) as [msg|] eqn:Hdec.
    + apply Decode_Some in Hdec. destruct Hdec as [Hn [Hroom _]].
      rewrite len_skipn in Hroom by lia.
      change (2 ^ 32) with 4294967296 in *.
      change (2 ^ 64) with 18446744073709551616 in *.
      rewrite (uint32_small (4 + Message.totalLength msg))
        by (change (2 ^ 32) with 4294967296; lia).
      rewrite (uint64_small (4 + Message.totalLength msg))
        by (change (2 ^ 64) with 18446744073709551616; lia).
      rewrite (uint64_small (cur + (4 + Message.totalLength msg)))
        by (change (2 ^ 64) with 18446744073709551616; lia).
      destruct (walk fuel length payload _) as [[steps' fin']| |] eqn:Hwalk;
        cbn [bind fst snd]; try discriminate.
      intros [= <- <-].
      apply IH in Hwalk; [|lia]. destruct Hwalk as [stop [Htiles [Hstop Hfin]]].
      exists stop. split; [|split; [lia|exact Hfin]].
      cbn [stamped map tiles fst snd Message.setOffset Message.offset].
      split; [apply uint64_small;
              change (2 ^ 64) with 18446744073709551616; lia|].
      unfold encodedLength. cbn [Message.totalLength Message.setOffset].
      fold (stamped base steps').
      replace (base + cur + (4 + Message.totalLength msg))
        with (base + (cur + (4 + Message.totalLength msg))) by lia.
      exact Htiles.
    + intros [= <- <-]. exists cur. cbn [stamped map tiles].
      split; [reflexivity|]. split; [lia|]. intros e He; discriminate.
  - intros [= <- <-]. exists cur. cbn [stamped map tiles].
    split; [reflexivity|]. split; [lia|]. intros e [= <-]. reflexivity.
Qed.

(** X4: in every pass, over any payload, the messages handed to the handler
    lie end to end from the cursor: the first has the cursor as its offset,
    each next one begins where the one before ends, none reaches beyond the
    payload, and a pass without error leaves the cursor where the last one
    ends.  A pass that ends in an error leaves the cursor at the start. *)
Theorem consumeWithConn_tiles (consumer consumer' : BrokerConsumer)
    (io : Exchange) (num : Z) (err : option error) (msgs : list Message.t) :
  fits io ->
  0 <= offset consumer ->
  offset consumer + len (resp_payload io) < 2 ^ 64 ->
  consumeWithConn record consumer io [] = Returned (num, err, consumer', msgs) ->
  exists stop : Z,
    tiles (offset consumer) msgs stop
    /\ offset consumer <= stop <= offset consumer + len (resp_payload io)
    /\ (err = None -> offset consumer' = stop)
    /\ (err <> None -> offset consumer' = offset consumer).
Proof.
  intros Hfit Hbase Hmax. unfold fits in Hfit.
  pose proof (len_nonneg (resp_payload io)) as Hlen.
  assert (Hnone : forall c : BrokerConsumer,
             c = consumer ->
             exists stop : Z,
               tiles (offset consumer) [] stop
               /\ offset consumer <= stop
                  <= offset consumer + len (resp_payload io)
               /\ (@None error = None -> offset c = stop)
               /\ (@None error <> None -> offset c = offset consumer)).
  { intros c ->. exists (offset consumer). cbn [tiles].
    split; [reflexivity|]. split; [lia|]. split; intros; reflexivity. }
  unfold consumeWithConn.
  destruct (write_err io) as [e|].
  { intros [= _ <- <- <-]. exists (offset consumer). cbn [tiles].
    split; [reflexivity|]. split; [lia|]. split; [discriminate|reflexivity]. }
  destruct (read_err io) as [e|].
  { intros [= _ <- <- <-]. exists (offset consumer). cbn [tiles].
    split; [reflexivity|]. split; [lia|]. split; [discriminate|reflexivity]. }
  destruct (resp_length io >? 2);
    [|intros [= _ <- <- <-]; apply Hnone; reflexivity].
  rewrite scan_walk.
  destruct (walk _ _ _ _) as [[steps fin]| |] eqn:Hwalk; cbn [bind];
    try discriminate.
  apply (walk_tiles (offset consumer) (resp_length io) (resp_payload io)
           Hfit Hbase Hmax) in Hwalk; [|lia].
  destruct Hwalk as [stop [Htiles [Hstop Hfin]]]. rewrite Z.add_0_r in Htiles.
  unfold finish. cbn [fst snd]. rewrite handleAll_record, app_nil_l.
  destruct fin as [e|]; intros [= _ <- <- <-];
    exists (offset consumer + stop); (split; [exact Htiles|]); (split; [lia|]).
  - rewrite (Hfin e eq_refl). cbn [setOffset offset].
    split; [intros _; apply uint64_small; lia|intros Hne; contradiction].
  - split; [discriminate|reflexivity].
Qed.

Lemma consumeWithConn_tiles_witness :
  exists stop : Z,
    tiles 100 [messageOf frameA 100; messageOf frameB 108] stop
    /\ 100 <= stop <= 100 + 18
    /\ (@None error = None -> 118 = stop)
    /\ (@None error <> None -> 118 = 100).
Proof.
  apply (consumeWithConn_tiles (consumerAt 100) (consumerAt 118)
           (response 18 (frameA ++ frameB)) 2 None
           [messageOf frameA 100; messageOf frameB 108]).
  - by_computation.
  - by_computation.
  - by_computation.
  - vm_compute. reflexivity.
Defined.

(** ** consumeWithConn: what lies past the declared length, and batching *)

(** A walk over well-formed frames ends behind the last frame that the
    declared length covers, whatever follows in the payload. *)
Lemma walk_frames_stop (length : Z) (frames : list (list byte))
    (tail : list byte) :
  Forall (fun f => isFrame f = true) frames ->
  frames <> [] ->
  len (concat frames ++ tail) < 2 ^ 32 ->
  length < 2 ^ 32 ->
  len (concat frames) <= length <= len (concat frames) + 3 ->
  walk (S (List.length (concat frames ++ tail))) length (concat frames ++ tail) 0
  = Returned (stepsOf 0 frames, Some (len (concat frames))).
Proof.
  intros Hall Hne Hfit Hlen Hcover.
  pose proof (len_concat_frames frames Hall) as Hk.
  pose proof (len_nonneg tail) as Ht.
  assert (Hk1 : 1 <= len frames).
  { destruct frames; [contradiction|]. rewrite len_cons.
    pose proof (len_nonneg frames). lia. }
  assert (Hsb : scanBound length = length - 4) by (apply scanBound_eq; lia).
  pose proof (walk_over_frames length tail frames
                (S (List.length (concat frames ++ tail))) [] Hall) as Hwalk.
  cbn [app] in Hwalk. change (len (@nil byte)) with 0 in Hwalk.
  rewrite Z.add_0_l in Hwalk. rewrite len_app in Hfit.
  assert (Hfuel : (List.length frames <= List.length (concat frames ++ tail))%nat)
    by (unfold len in *; rewrite length_app; lia).
  rewrite Hwalk; [|rewrite len_app; lia|lia|lia].
  replace (S (List.length (concat frames ++ tail)) - List.length frames)%nat
    with (S (List.length (concat frames ++ tail) - List.length frames)) by lia.
  cbn [walk].
  replace (len (concat frames) <=? scanBound length) with false
    by (symmetry; apply Z.leb_gt; lia).
  cbn [bind fst snd]. rewrite app_nil_r. reflexivity.
Qed.

(** A pass over well-formed frames that the declared length covers. *)
Lemma frames_pass {St : Type} (handlerFunc : Message.t -> St -> St)
    (consumer : BrokerConsumer) (io : Exchange) (frames : list (list byte))
    (tail : list byte) (s : St) :
  Forall (fun f => isFrame f = true) frames ->
  frames <> [] ->
  write_err io = None -> read_err io = None ->
  resp_payload io = concat frames ++ tail ->
  fits io ->
  resp_length io < 2 ^ 32 ->
  len (concat frames) <= resp_length io <= len (concat frames) + 3 ->
  0 <= offset consumer ->
  offset consumer + len (concat frames) < 2 ^ 64 ->
  consumeWithConn handlerFunc consumer io s
  = Returned (len frames, None,
              setOffset consumer (offset consumer + len (concat frames)),
              handleAll handlerFunc (messagesOf (offset consumer) frames) s).
Proof.
  intros Hall Hne Hw Hr Hp Hfit Hlen Hcover Hbase Hmax.
  unfold fits in Hfit. rewrite Hp in Hfit.
  pose proof (len_concat_frames frames Hall) as Hk.
  assert (Hk1 : 1 <= len frames).
  { destruct frames; [contradiction|]. rewrite len_cons.
    pose proof (len_nonneg frames). lia. }
  unfold consumeWithConn. rewrite Hw, Hr, Hp.
  replace (resp_length io >? 2) with true by (symmetry; apply Z.gtb_lt; lia).
  rewrite scan_walk.
  rewrite (walk_frames_stop (resp_length io) frames tail Hall Hne Hfit Hlen Hcover).
  cbn [bind finish fst snd].
  rewrite (stamped_stepsOf (offset consumer) frames 0) by lia.
  rewrite Z.add_0_r, Z.add_0_l. unfold len at 1. rewrite stepsOf_length.
  rewrite uint64_small by lia. reflexivity.
Qed.

(** X5: what lies in the payload past the declared length is not looked at.
    When the declared length covers K well-formed frames (and at most three
    bytes more), a pass delivers those K frames and moves the cursor behind
    them without an error, whatever bytes follow: a fragment of a further
    frame or whole frames.  The pass is the pass over the K frames alone. *)
Theorem consumeWithConn_ignores_past_length {St : Type}
    (handlerFunc : Message.t -> St -> St) (consumer : BrokerConsumer)
    (io : Exchange) (frames : list (list byte)) (tail : list byte) (s : St) :
  Forall (fun f => isFrame f = true) frames ->
  frames <> [] ->
  write_err io = None -> read_err io = None ->
  resp_payload io = concat frames ++ tail ->
  fits io ->
  resp_length io < 2 ^ 32 ->
  len (concat frames) <= resp_length io <= len (concat frames) + 3 ->
  0 <= offset consumer ->
  offset consumer + len (concat frames) < 2 ^ 64 ->
  consumeWithConn handlerFunc consumer io s
  = consumeWithConn handlerFunc consumer (framed frames) s
  /\ consumeWithConn handlerFunc consumer io s
     = Returned (len frames, None,
                 setOffset consumer (offset consumer + len (concat frames)),
                 handleAll handlerFunc (messagesOf (offset consumer) frames) s).
Proof.
  intros Hall Hne Hw Hr Hp Hfit Hlen Hcover Hbase Hmax.
  assert (Hrun : consumeWithConn handlerFunc consumer io s
                 = Returned (len frames, None,
                             setOffset consumer
                               (offset consumer + len (concat frames)),
                             handleAll handlerFunc
                               (messagesOf (offset consumer) frames) s))
    by (apply (frames_pass handlerFunc consumer io frames tail s); assumption).
  split; [|exact Hrun]. rewrite Hrun. symmetry.
  apply (frames_pass handlerFunc consumer (framed frames) frames [] s);
    try assumption; try reflexivity.
  - cbn. rewrite app_nil_r. reflexivity.
  - unfold fits, framed, response. cbn [resp_payload]. lia.
  - unfold framed, response. cbn [resp_length]. lia.
  - unfold framed, response. cbn [resp_length]. lia.
Qed.

Lemma consumeWithConn_ignores_past_length_witness :
  consumeWithConn tally (consumerAt 100)
    (response 10 (frameA ++ [x00; x00])) 0
  = consumeWithConn tally (consumerAt 100) (framed [frameA]) 0
  /\ consumeWithConn tally (consumerAt 100)
       (response 10 (frameA ++ [x00; x00])) 0
     = Returned (1, None, consumerAt 108, 1).
Proof.
  apply (consumeWithConn_ignores_past_length tally (consumerAt 100)
           (response 10 (frameA ++ [x00; x00])) [frameA] [x00; x00] 0).
  - repeat constructor.
  - discriminate.
  - reflexivity.
  - reflexivity.
  - reflexivity.
  - by_computation.
  - by_computation.
  - by_computation.
  - by_computation.
  - by_computation.
Defined.

Lemma messagesOf_app (frames1 frames2 : list (list byte)) :
  forall o : Z,
    messagesOf o (frames1 ++ frames2)
    = messagesOf o frames1 ++ messagesOf (o + len (concat frames1)) frames2.
Proof.
  induction frames1 as [|f frames1 IH]; intros o.
  - cbn. change (len (@nil byte)) with 0. rewrite Z.add_0_r. reflexivity.
  - cbn [app messagesOf concat]. rewrite IH, len_app. do 3 f_equal. lia.
Qed.

Lemma handleAll_app {St : Type} (handlerFunc : Message.t -> St -> St)
    (msgs1 msgs2 : list Message.t) (s : St) :
  handleAll handlerFunc (msgs1 ++ msgs2) s
  = handleAll handlerFunc msgs2 (handleAll handlerFunc msgs1 s).
Proof. unfold handleAll. apply fold_left_app. Qed.

(** X6: delivery does not depend on how frames are batched into responses.
    Two passes, the first over a response with the frames [frames1] and the
    second over a response with the frames [frames2], call the handler on
    the same messages with the same offsets, and end at the same cursor, as
    one pass over a response that holds [frames1] followed by [frames2]. *)
Theorem consumeWithConn_batching {St : Type}
    (handlerFunc : Message.t -> St -> St) (consumer : BrokerConsumer)
    (frames1 frames2 : list (list byte)) (s : St) :
  Forall (fun f => isFrame f = true) frames1 ->
  Forall (fun f => isFrame f = true) frames2 ->
  frames1 <> [] -> frames2 <> [] ->
  len (concat (frames1 ++ frames2)) < 2 ^ 32 ->
  0 <= offset consumer ->
  offset consumer + len (concat (frames1 ++ frames2)) < 2 ^ 64 ->
  exists (n1 n2 : Z) (consumer1 consumer2 : BrokerConsumer) (s1 s2 : St),
    consumeWithConn handlerFunc consumer (framed frames1) s
    = Returned (n1, None, consumer1, s1)
    /\ consumeWithConn handlerFunc consumer1 (framed frames2) s1
       = Returned (n2, None, consumer2, s2)
    /\ consumeWithConn handlerFunc consumer (framed (frames1 ++ frames2)) s
       = Returned (n1 + n2, None, consumer2, s2).
Proof.
  intros Hall1 Hall2 Hne1 Hne2 Hfit Hbase Hmax.
  rewrite concat_app, len_app in Hfit, Hmax.
  pose proof (len_nonneg (concat frames1)) as H1.
  pose proof (len_nonneg (concat frames2)) as H2.
  assert (Hpass : forall (frames : list (list byte)) (c : BrokerConsumer) (t : St),
             Forall (fun f => isFrame f = true) frames -> frames <> [] ->
             len (concat frames) < 2 ^ 32 ->
             0 <= offset c -> offset c + len (concat frames) < 2 ^ 64 ->
             consumeWithConn handlerFunc c (framed frames) t
             = Returned (len frames, None,
                         setOffset c (offset c + len (concat frames)),
                         handleAll handlerFunc (messagesOf (offset c) frames) t)).
  { intros frames c t Hall Hne Hf Hb Hm.
    apply (frames_pass handlerFunc c (framed frames) frames [] t);
      try assumption; try reflexivity.
    - cbn. rewrite app_nil_r. reflexivity.
    - unfold framed, response. cbn [resp_length]. lia. }
  eexists _, _, _, _, _, _.
  split; [apply Hpass; try assumption; lia|].
  split; [apply Hpass; try assumption; cbn [setOffset offset]; lia|].
  rewrite Hpass.
  - cbn [setOffset offset broker maxSize].
    rewrite messagesOf_app, handleAll_app, concat_app, !len_app.
    unfold setOffset. cbn [broker maxSize]. do 4 f_equal. lia.
  - apply Forall_app. split; assumption.
  - intros Happ. apply app_eq_nil in Happ. destruct Happ as [-> _]. contradiction.
  - rewrite concat_app, len_app. lia.
  - exact Hbase.
  - rewrite concat_app, len_app. lia.
Qed.

Lemma consumeWithConn_batching_witness :
  exists (n1 n2 : Z) (consumer1 consumer2 : BrokerConsumer) (s1 s2 : Z),
    consumeWithConn tally (consumerAt 100) (framed [frameA]) 0
    = Returned (n1, None, consumer1, s1)
    /\ consumeWithConn tally consumer1 (framed [frameB]) s1
       = Returned (n2, None, consumer2, s2)
    /\ consumeWithConn tally (consumerAt 100) (framed ([frameA] ++ [frameB])) 0
       = Returned (n1 + n2, None, consumer2, s2).
Proof.
  apply (consumeWithConn_batching tally (consumerAt 100) [frameA] [frameB] 0).
  - repeat constructor.
  - repeat constructor.
  - discriminate.
  - discriminate.
  - by_computation.
  - by_computation.
  - by_computation.
Defined.

(** ** ConsumeUntilQuit: polls after a failure, logging and sleeping *)

Lemma handleAll_invoke_user {H : Type} (handlerFunc : Message.t -> H -> H)
    (msgs : list Message.t) :
  forall w : World H,
    user (handleAll (invoke handlerFunc) msgs w)
    = handleAll handlerFunc msgs (user w).
Proof.
  induction msgs as [|m msgs IH]; intros w; [reflexivity|].
  cbn [handleAll fold_left].
  fold (handleAll (invoke handlerFunc) msgs (invoke handlerFunc m w)).
  fold (handleAll handlerFunc msgs (handlerFunc m (user w))).
  rewrite IH. reflexivity.
Qed.

(** X7: a response that fails to decode after some frames is delivered over
    and over.  While the broker answers every poll with such a response,
    ConsumeUntilQuit hands the frames before the failure to the handler
    again on each poll, and the cursor stays where it was. *)
Theorem ConsumeUntilQuit_redelivers (consumer consumer' : BrokerConsumer)
    (pollTimeoutMs : Z) (io : Exchange) (num : Z) (err : error)
    (msgs : list Message.t) :
  consumeWithConn record consumer io []
  = Returned (num, Some err, consumer', msgs) ->
  forall n : nat,
    exists w' : World (list Message.t),
      ConsumeUntilQuit record consumer pollTimeoutMs None (repeat io n) (quiet [])
      = Returned (0, 0, None, consumer, w')
      /\ user w' = concat (repeat msgs n).
Proof.
  intros Hrec n.
  assert (Hsame : consumer' = consumer).
  { revert Hrec. unfold consumeWithConn.
    destruct (write_err io); [intros [= _ _ <- _]; reflexivity|].
    destruct (read_err io); [intros [= _ _ <- _]; reflexivity|].
    destruct (resp_length io >? 2); [|discriminate].
    destruct (scan _ _ _ _ _ _ _ _) as [[cur k t|k t]| |]; cbn [bind];
      try discriminate.
    intros [= _ _ <- _]; reflexivity. }
  subst consumer'.
  assert (Hloop : forall w : World (list Message.t),
             exists w' : World (list Message.t),
               pollUntilQuit record pollTimeoutMs consumer (repeat io n) w
               = Returned (consumer, w')
               /\ user w' = user w ++ concat (repeat msgs n)).
  { induction n as [|n IH]; intros w.
    - exists (emit EvDone w). cbn. rewrite app_nil_r. split; reflexivity.
    - cbn [repeat pollUntilQuit concat].
      rewrite consumeWithConn_as_recorded, Hrec. cbn [bind].
      match goal with
      | |- exists w', pollUntilQuit _ _ _ _ ?w0 = _ /\ _ =>
          destruct (IH w0) as [w' [Hrun Huser]]
      end.
      exists w'. split; [exact Hrun|]. rewrite Huser.
      destruct (negb (isEOF err)); cbn [emit user];
        rewrite handleAll_invoke_user, handleAll_record, app_assoc; reflexivity. }
  unfold ConsumeUntilQuit.
  destruct (Hloop (emit EvConnect (quiet []))) as [w' [Hrun Huser]].
  rewrite Hrun. cbn [bind]. exists w'. split; [reflexivity|exact Huser].
Qed.

Lemma ConsumeUntilQuit_redelivers_witness :
  exists w' : World (list Message.t),
    ConsumeUntilQuit record (consumerAt 100) 10 None
      (repeat (response 14 (frameA ++ truncated)) 3) (quiet [])
    = Returned (0, 0, None, consumerAt 100, w')
    /\ user w' = concat (repeat [messageOf frameA 100] 3).
Proof.
  apply (ConsumeUntilQuit_redelivers (consumerAt 100) (consumerAt 100) 10
           (response 14 (frameA ++ truncated)) 1 ErrorDecodingMessage
           [messageOf frameA 100]).
  vm_compute. reflexivity.
Defined.

Lemma logged_app (evs1 evs2 : list event) :
  logged (evs1 ++ evs2) = logged evs1 ++ logged evs2.
Proof. unfold logged. apply flat_map_app. Qed.

Lemma sleeps_app (evs1 evs2 : list event) :
  sleeps (evs1 ++ evs2) = sleeps evs1 ++ sleeps evs2.
Proof. unfold sleeps. apply flat_map_app. Qed.

Lemma handles_silent (msgs : list Message.t) :
  logged (map EvHandle msgs) = [] /\ sleeps (map EvHandle msgs) = [].
Proof. induction msgs as [|m msgs [IHl IHs]]; split; cbn; auto. Qed.

Lemma pollUntilQuit_logs_and_sleeps {H : Type}
    (handlerFunc : Message.t -> H -> H) (pollTimeoutMs : Z)
    (polls : list Exchange) :
  Forall fits polls ->
  forall (consumer : BrokerConsumer) (w : World H),
    exists (consumer' : BrokerConsumer) (w' : World H),
      pollUntilQuit handlerFunc pollTimeoutMs consumer polls w
      = Returned (consumer', w')
      /\ logged (events w') = logged (events w) ++ loggable polls
      /\ sleeps (events w')
         = sleeps (events w) ++ repeat pollTimeoutMs (List.length polls).
Proof.
  induction 1 as [|io polls Hfit _ IH]; intros consumer w.
  - exists consumer, (emit EvDone w). cbn [pollUntilQuit emit events].
    rewrite logged_app, sleeps_app. cbn. rewrite !app_nil_r.
    repeat split; reflexivity.
  - cbn [pollUntilQuit].
    destruct (consumeWithConn_total (invoke handlerFunc) consumer io w Hfit)
      as [num [c1 [w1 [Hpass _]]]].
    destruct (consumeWithConn_events _ _ _ _ _ _ _ _ Hpass) as [msgs Hmsgs].
    destruct (handles_silent msgs) as [Hl Hs].
    rewrite Hpass. cbn [bind].
    match goal with
    | |- context [pollUntilQuit _ _ ?c0 polls ?w0] =>
        destruct (IH c0 w0) as [c' [w' [Hrun [Hlog Hsleep]]]]
    end.
    exists c', w'. split; [exact Hrun|].
    rewrite Hlog, Hsleep. cbn [loggable flat_map List.length repeat].
    fold (loggable polls).
    destruct (passError io) as [e|]; [destruct (isEOF e)|];
      cbn [negb emit events]; rewrite ?logged_app, ?sleeps_app, Hmsgs,
        ?logged_app, ?sleeps_app, Hl, Hs; cbn [logged sleeps flat_map app];
      rewrite ?app_nil_r, <- ?app_assoc; split; reflexivity.
Qed.

(** X8: ConsumeUntilQuit goes through all its polls, whatever they return:
    it logs the error of every pass that failed, in the order of the polls
    and end-of-stream left out, and sleeps for pollTimeoutMs once after
    every poll, failed or not. *)
Theorem ConsumeUntilQuit_logs_and_sleeps {H : Type}
    (handlerFunc : Message.t -> H -> H) (consumer : BrokerConsumer)
    (pollTimeoutMs : Z) (polls : list Exchange) (w : World H) :
  Forall fits polls ->
  exists (consumer' : BrokerConsumer) (w' : World H),
    ConsumeUntilQuit handlerFunc consumer pollTimeoutMs None polls w
    = Returned (0, 0, None, consumer', w')
    /\ logged (events w') = logged (events w) ++ loggable polls
    /\ sleeps (events w')
       = sleeps (events w) ++ repeat pollTimeoutMs (List.length polls).
Proof.
  intros Hfit. unfold ConsumeUntilQuit.
  destruct (pollUntilQuit_logs_and_sleeps handlerFunc pollTimeoutMs polls Hfit
              consumer (emit EvConnect w)) as [c' [w' [Hrun [Hlog Hsleep]]]].
  rewrite Hrun. cbn [bind]. exists c', w'. split; [reflexivity|].
  rewrite Hlog, Hsleep. cbn [emit events]. rewrite logged_app, sleeps_app.
  cbn. rewrite !app_nil_r. split; reflexivity.
Qed.

Lemma ConsumeUntilQuit_logs_and_sleeps_witness :
  exists (consumer' : BrokerConsumer) (w' : World (list Message.t)),
    ConsumeUntilQuit record (consumerAt 100) 10 None
      [failedRead io_EOF; response 14 (frameA ++ truncated);
       failedRead (NetError 7); response 8 frameA] (quiet [])
    = Returned (0, 0, None, consumer', w')
    /\ logged (events w')
       = logged [] ++ loggable [failedRead io_EOF;
                                response 14 (frameA ++ truncated);
                                failedRead (NetError 7); response 8 frameA]
    /\ sleeps (events w') = sleeps [] ++ repeat 10 4.
Proof.
  apply (ConsumeUntilQuit_logs_and_sleeps record (consumerAt 100) 10
           [failedRead io_EOF; response 14 (frameA ++ truncated);
            failedRead (NetError 7); response 8 frameA] (quiet [])).
  repeat constructor.
Defined.

(** ** ConsumeOnChannel: what it returns *)

Lemma sent_app (evs1 evs2 : list event) :
  sent (evs1 ++ evs2) = sent evs1 ++ sent evs2.
Proof. unfold sent. apply flat_map_app. Qed.

Lemma sent_sends (msgs : list Message.t) : sent (map EvSend msgs) = msgs.
Proof.
  induction msgs as [|m msgs IH]; [reflexivity|].
  cbn [map sent flat_map app]. fold (sent (map EvSend msgs)). rewrite IH.
  reflexivity.
Qed.

Lemma handleAll_sendOnChannel (msgs : list Message.t) :
  forall w : World Z,
    user (handleAll sendOnChannel msgs w) = user w + len msgs
    /\ events (handleAll sendOnChannel msgs w) = events w ++ map EvSend msgs.
Proof.
  induction msgs as [|m msgs IH]; intros w.
  - cbn. change (len (@nil Message.t)) with 0. rewrite app_nil_r.
    split; [lia|reflexivity].
  - cbn [handleAll fold_left map].
    fold (handleAll sendOnChannel msgs (sendOnChannel m w)).
    destruct (IH (sendOnChannel m w)) as [Hu He]. rewrite Hu, He.
    cbn [sendOnChannel user events]. rewrite len_cons, <- app_assoc.
    split; [lia|reflexivity].
Qed.

(** A pass of the loop of ConsumeOnChannel adds to [num] what it sends. *)
Lemma sendOnChannel_pass (consumer consumer' : BrokerConsumer) (io : Exchange)
    (w w' : World Z) (num : Z) (err : option error) :
  consumeWithConn sendOnChannel consumer io w
  = Returned (num, err, consumer', w') ->
  exists msgs : list Message.t,
    user w' = user w + len msgs /\ events w' = events w ++ map EvSend msgs.
Proof.
  rewrite consumeWithConn_as_recorded.
  destruct (consumeWithConn record consumer io [])
    as [[[[n e] c] msgs]| |]; cbn [bind]; try discriminate.
  intros [= _ _ _ <-]. exists msgs. apply handleAll_sendOnChannel.
Qed.

Lemma pollOnChannel_counts (pollTimeoutMs : Z) (polls : list Exchange) :
  forall (consumer consumer' : BrokerConsumer) (w w' : World Z),
    pollOnChannel pollTimeoutMs consumer polls w = Returned (consumer', w') ->
    user w' - len (sent (events w')) = user w - len (sent (events w))
    /\ exists (before after : list Exchange) (io : Exchange)
              (c1 : BrokerConsumer) (w1 w2 : World Z) (num : Z) (err : error),
         polls = before ++ io :: after
         /\ consumeWithConn sendOnChannel c1 io w1
            = Returned (num, Some err, consumer', w2).
Proof.
  induction polls as [|io polls IH]; intros consumer consumer' w w';
    [discriminate|].
  cbn [pollOnChannel].
  destruct (consumeWithConn sendOnChannel consumer io w)
    as [[[[num err] c1] w1]| |] eqn:Hpass; cbn [bind]; try discriminate.
  destruct (sendOnChannel_pass _ _ _ _ _ _ _ Hpass) as [msgs [Hu He]].
  destruct err as [e|].
  - intros [= <- <-]. split.
    + destruct (negb (isEOF e)); cbn [emit events user];
        rewrite ?sent_app, He, sent_app, sent_sends, ?len_app, Hu;
        cbn [sent flat_map app]; change (len (@nil Message.t)) with 0; lia.
    + exists [], polls, io, consumer, w, w1, num, e. split; [reflexivity|exact Hpass].
  - intros Hrest. apply IH in Hrest.
    destruct Hrest as [Hcount [before [after [io' [c2 [w2 [w3 [n [e [Hsplit Hlast]]]]]]]]]].
    split.
    + rewrite Hcount. cbn [emit events user].
      rewrite sent_app, He, sent_app, sent_sends, !len_app, Hu.
      cbn [sent flat_map app]. change (len (@nil Message.t)) with 0. lia.
    + exists (io :: before), after, io', c2, w2, w3, n, e.
      split; [rewrite Hsplit; reflexivity|exact Hlast].
Qed.

(** X9: when ConsumeOnChannel returns after a successful connect, its count
    is the number of messages it has sent on the channel, those of a pass
    that failed after some frames among them, and its error is nil although
    the loop only ended because a pass returned an error: that error is
    logged or dropped, never returned. *)
Theorem ConsumeOnChannel_result (consumer consumer' : BrokerConsumer)
    (pollTimeoutMs : Z) (polls : list Exchange) (w w' : World Z)
    (num : Z) (err : option error) :
  ConsumeOnChannel consumer pollTimeoutMs None polls w
  = Returned (num, err, consumer', w') ->
  err = None
  /\ num = len (sent (events w')) - len (sent (events w))
  /\ exists (before after : list Exchange) (io : Exchange)
            (c1 : BrokerConsumer) (w1 w2 : World Z) (n : Z) (e : error),
       polls = before ++ io :: after
       /\ consumeWithConn sendOnChannel c1 io w1
          = Returned (n, Some e, consumer', w2).
Proof.
  unfold ConsumeOnChannel.
  destruct (pollOnChannel _ _ _ _) as [[c1 w1]| |] eqn:Hpoll; cbn [bind];
    try discriminate.
  intros [= <- <- <- <-].
  destruct (pollOnChannel_counts _ _ _ _ _ _ Hpoll) as [Hcount Hlast].
  cbn [user events] in Hcount.
  split; [reflexivity|]. split; [|exact Hlast].
  cbn [emit user events]. rewrite !sent_app in *. cbn [sent flat_map app] in *.
  rewrite !app_nil_r in *. lia.
Qed.

Lemma ConsumeOnChannel_result_witness :
  @None error = None
  /\ 2 = len (sent [EvConnect; EvSend (messageOf frameA 100); EvSleep 10;
                    EvSend (messageOf frameA 108);
                    EvLog ErrorDecodingMessage; EvDone; EvClose; EvCloseChan])
         - len (sent [])
  /\ exists (before after : list Exchange) (io : Exchange)
            (c1 : BrokerConsumer) (w1 w2 : World Z) (n : Z) (e : error),
       [response 8 frameA; response 14 (frameA ++ truncated)]
       = before ++ io :: after
       /\ consumeWithConn sendOnChannel c1 io w1
          = Returned (n, Some e, consumerAt 108, w2).
Proof.
  apply (ConsumeOnChannel_result (consumerAt 100) (consumerAt 108) 10
           [response 8 frameA; response 14 (frameA ++ truncated)] (quiet 0)
           {| user := 2;
              events := [EvConnect; EvSend (messageOf frameA 100); EvSleep 10;
                         EvSend (messageOf frameA 108);
                         EvLog ErrorDecodingMessage; EvDone; EvClose;
                         EvCloseChan] |}
           2 None).
  vm_compute. reflexivity.
Defined.

(** ** Consume: its trace *)



(** ** GetOffsets: bounds and failures *)

Lemma Uint64_range (b : list byte) (z : Z) :
  Uint64 b = Returned z -> 0 <= z < 2 ^ 64 /\ 8 <= len b.
Proof.
  destruct b as [|b0 [|b1 [|b2 [|b3 [|b4 [|b5 [|b6 [|b7 rest]]]]]]]];
    try discriminate.
  intros [= <-]. unfold bigEndian; cbn [fold_left].
  pose proof (byteval_range b0); pose proof (byteval_range b1).
  pose proof (byteval_range b2); pose proof (byteval_range b3).
  pose proof (byteval_range b4); pose proof (byteval_range b5).
  pose proof (byteval_range b6); pose proof (byteval_range b7).
  rewrite !len_cons. pose proof (len_nonneg rest).
  change (2 ^ 64) with 18446744073709551616. lia.
Qed.

(** What the loop of GetOffsets adds to the offsets it has: values of 64
    bits, eight payload bytes each, and no more than the count allows. *)
Lemma collectOffsets_bounds (length numOffsets : Z) (payload : list byte) :
  len payload < 2 ^ 32 ->
  forall (fuel : nat) (currentOffset : Z) (offsets result : list Z),
    0 <= currentOffset <= len payload ->
    8 * len offsets <= currentOffset ->
    collectOffsets fuel length payload numOffsets currentOffset offsets
    = Returned result ->
    exists more : list Z,
      result = offsets ++ more
      /\ currentOffset + 8 * len more <= len payload
      /\ Forall (fun o => 0 <= o < 2 ^ 64) more
      /\ (more <> [] -> len result <= numOffsets).
Proof.
  intros Hfit. induction fuel as [|fuel IH];
    intros cur offsets result Hcur Hoffs; [discriminate|].
  pose proof (len_nonneg offsets) as Ho.
  assert (Hstop : Returned offsets = Returned result ->
                  exists more : list Z,
                    result = offsets ++ more
                    /\ cur + 8 * len more <= len payload
                    /\ Forall (fun o => 0 <= o < 2 ^ 64) more
                    /\ (more <> [] -> len result <= numOffsets)).
  { intros [= <-]. exists []. rewrite app_nil_r.
    change (len (@nil Z)) with 0. split; [reflexivity|]. split; [lia|].
    split; [constructor|]. intros Hne; contradiction. }
  cbn [collectOffsets].
  destruct ((cur <? scanBound length) && (uint32 (len offsets) <? numOffsets))
    eqn:Hcond; [|exact Hstop].
  apply andb_true_iff in Hcond. destruct Hcond as [_ Hmore].
  apply Z.ltb_lt in Hmore.
  change (2 ^ 32) with 4294967296 in Hfit.
  rewrite uint32_small in Hmore by (change (2 ^ 32) with 4294967296; lia).
  unfold sliceFrom.
  replace (cur <=? len payload) with true by (symmetry; apply Z.leb_le; lia).
  cbn [bind].
  destruct (Uint64 (skipn (Z.to_nat cur) payload)) as [x| |] eqn:Hread;
    cbn [bind]; try discriminate.
  apply Uint64_range in Hread. destruct Hread as [Hx Hroom].
  rewrite len_skipn in Hroom by lia.
  rewrite uint64_small by (change (2 ^ 64) with 18446744073709551616; lia).
  intros Hrest. apply IH in Hrest; [|lia|rewrite len_app; change (len [x]) with 1; lia].
  destruct Hrest as [more [Hres [Hbytes [Hrange Hcount]]]].
  exists (x :: more). rewrite len_cons.
  split; [rewrite Hres, <- app_assoc; reflexivity|]. split; [lia|].
  split; [constructor; assumption|]. intros _.
  destruct more as [|y more]; [|apply Hcount; discriminate].
  rewrite Hres, app_nil_r, len_app. change (len [x]) with 1. lia.
Qed.

(** X11: the offsets GetOffsets returns are 64-bit values read from the
    payload, eight bytes each behind the 4-byte count, and never more of
    them than the count field of the payload says. *)
Theorem GetOffsets_bounds (consumer : BrokerConsumer) (time maxNumOffsets : Z)
    (connect_err : option error) (io : Exchange) (offsets : list Z)
    (err : option error) :
  fits io ->
  GetOffsets consumer time maxNumOffsets connect_err io
  = Returned (offsets, err) ->
  Forall (fun o => 0 <= o < 2 ^ 64) offsets
  /\ (offsets = [] \/ 4 + 8 * len offsets <= len (resp_payload io))
  /\ (forall count rest : list byte,
        resp_payload io = count ++ rest -> List.length count = 4%nat ->
        len offsets <= bigEndian count).
Proof.
  intros Hfit. unfold fits in Hfit.
  assert (Hnone : forall e : option error,
             Returned (@nil Z, e) = Returned (offsets, err) ->
             Forall (fun o => 0 <= o < 2 ^ 64) offsets
             /\ (offsets = [] \/ 4 + 8 * len offsets <= len (resp_payload io))
             /\ (forall count rest : list byte,
                   resp_payload io = count ++ rest ->
                   List.length count = 4%nat ->
                   len offsets <= bigEndian count)).
  { intros e [= <- _]. split; [constructor|]. split; [left; reflexivity|].
    intros count rest _ Hcount.
    destruct count as [|b0 [|b1 [|b2 [|b3 [|b4 count]]]]]; try discriminate.
    pose proof (bigEndian4_range b0 b1 b2 b3). change (len (@nil Z)) with 0. lia. }
  unfold GetOffsets.
  destruct connect_err; [apply Hnone|].
  destruct (write_err io); [apply Hnone|].
  destruct (read_err io); [apply Hnone|].
  destruct (resp_length io >? 4); [|apply Hnone].
  unfold sliceFrom.
  replace (0 <=? len (resp_payload io)) with true
    by (symmetry; apply Z.leb_le; apply len_nonneg).
  cbn [Z.to_nat skipn bind].
  destruct (resp_payload io) as [|b0 [|b1 [|b2 [|b3 rest]]]] eqn:Hp;
    cbn [Uint32 bind]; try discriminate.
  rewrite <- Hp in *.
  assert (Hlen : 4 <= len (resp_payload io))
    by (rewrite Hp, !len_cons; pose proof (len_nonneg rest); lia).
  destruct (collectOffsets _ _ _ _ _ _) as [res| |] eqn:Hloop; cbn [bind];
    try discriminate.
  intros [= <- _].
  apply (collectOffsets_bounds (resp_length io) (bigEndian [b0; b1; b2; b3])
           (resp_payload io) Hfit) in Hloop;
    [|lia|change (len (@nil Z)) with 0; lia].
  destruct Hloop as [more [Hres [Hbytes [Hrange Hcount]]]].
  cbn [app] in Hres. subst res.
  split; [exact Hrange|]. split; [right; lia|].
  intros count rest' Hsplit Hcount4.
  assert (Hsame : count = [b0; b1; b2; b3]).
  { rewrite Hp in Hsplit.
    destruct count as [|c0 [|c1 [|c2 [|c3 [|c4 count]]]]]; try discriminate.
    cbn [app] in Hsplit. injection Hsplit as <- <- <- <- _. reflexivity. }
  rewrite Hsame. pose proof (bigEndian4_range b0 b1 b2 b3).
  destruct more as [|x more]; [change (len (@nil Z)) with 0; lia|].
  apply Hcount. discriminate.
Qed.

Lemma GetOffsets_bounds_witness :
  Forall (fun o => 0 <= o < 2 ^ 64) [300; 200; 100]
  /\ ([300; 200; 100] = []
      \/ 4 + 8 * len [300; 200; 100] <= len (resp_payload (response 28 threeOffsets)))
  /\ (forall count rest : list byte,
        resp_payload (response 28 threeOffsets) = count ++ rest ->
        List.length count = 4%nat ->
        len [300; 200; 100] <= bigEndian count).
Proof.
  apply (GetOffsets_bounds (consumerAt 0) (-1) 2 None
           (response 28 threeOffsets) [300; 200; 100] None).
  - by_computation.
  - vm_compute. reflexivity.
Defined.

(** X12: GetOffsets returns an error only together with an empty list, and
    the error is the one of the connect, of the write or of the read, the
    first of them that failed; once the response is read no error arises.
    A response with a declared length of at most 4 gives the empty list and
    no error. *)
Theorem GetOffsets_failure (consumer : BrokerConsumer) (time maxNumOffsets : Z)
    (connect_err : option error) (io : Exchange) :
  (forall (offsets : list Z) (err : error),
     GetOffsets consumer time maxNumOffsets connect_err io
     = Returned (offsets, Some err) ->
     offsets = []
     /\ (connect_err = Some err
         \/ (connect_err = None /\ write_err io = Some err)
         \/ (connect_err = None /\ write_err io = None
             /\ read_err io = Some err)))
  /\ (connect_err = None -> write_err io = None -> read_err io = None ->
      resp_length io <= 4 ->
      GetOffsets consumer time maxNumOffsets connect_err io
      = Returned ([], None)).
Proof.
  unfold GetOffsets. split.
  - intros offsets err.
    destruct connect_err as [e|]; [intros [= <- <-]; auto|].
    destruct (write_err io) as [e|]; [intros [= <- <-]; auto|].
    destruct (read_err io) as [e|]; [intros [= <- <-]; auto 6|].
    destruct (resp_length io >? 4); [|discriminate].
    destruct (sliceFrom _ _) as [b| |]; cbn [bind]; try discriminate.
    destruct (Uint32 b) as [n| |]; cbn [bind]; try discriminate.
    destruct (collectOffsets _ _ _ _ _ _) as [res| |]; cbn [bind]; discriminate.
  - intros -> -> -> Hlen.
    replace (resp_length io >? 4) with false; [reflexivity|].
    symmetry. rewrite Z.gtb_ltb. apply Z.ltb_ge. exact Hlen.
Qed.

Lemma GetOffsets_failure_witness :
  GetOffsets (consumerAt 0) (-1) 2 None (response 4 countThree)
  = Returned ([], None).
Proof.
  apply (proj2 (GetOffsets_failure (consumerAt 0) (-1) 2 None
                  (response 4 countThree))).
  - reflexivity.
  - reflexivity.
  - reflexivity.
  - by_computation.
Defined.
